(** * MEDC17 emission handler: the signature scan-and-patch engine

    A shallow embedding of [MEDC17EmissionHandler] from [emmission.py]:
    the rule catalog built by [__init__], the option defaulting, and
    [apply_modifications], followed by the properties of the engine;
    then the file layer ([validate_file], [read_binary], [write_binary],
    [process]) and the handler that the command-line script builds.

    Modelling choices.
    - A [bytearray] / [bytes] value is a [list byte].
    - A Python [str] is a [string]; [str.lower] is modelled on ASCII
      letters, which covers every rule name of the catalog.
    - [self.options] is a [gmap string bool]; [dict.get(k, False)] is
      [default false (m !! k)].
    - [self.patterns] is a dict iterated with [.items()], that is in
      insertion order: an association list.
    - The pair [(data, changes)] is threaded through the two loops; the
      in-place mutation of [data] becomes the first component of the
      returned state. *)

From Stdlib Require Import Strings.Ascii Strings.String Strings.Byte Strings.HexString ZArith.
From stdpp Require Import gmap strings list.

#[global] Instance byte_eq_dec : EqDecision byte := Byte.byte_eq_dec.

(** ** Python primitives *)

Section slices.
Context {A : Type}.

(** [l[a:b]] for [0 <= a <= b]; the upper bound is clamped to the length. *)
Definition slice (a b : nat) (l : list A) : list A :=
  take (b - a) (drop a l).

(** [l[a:b] = v] for [0 <= a <= b]: the (clamped) slice is replaced by [v]. *)
Definition set_slice (a b : nat) (v l : list A) : list A :=
  take a l ++ v ++ drop b l.
End slices.

(** [str.lower()] on ASCII text. *)
Definition lower_ascii (c : ascii) : ascii :=
  let n := nat_of_ascii c in
  if (65 <=? n) && (n <=? 90) then ascii_of_nat (n + 32) else c.

Fixpoint lower (s : string) : string :=
  match s with
  | EmptyString => EmptyString
  | String c s' => String (lower_ascii c) (lower s')
  end.

(** [hex(i)] for [i >= 0]. *)
Definition hex (i : nat) : string := HexString.of_nat i.

(** ** Data model *)

(** One entry of [self.patterns]: the dict with keys ['signature'],
    ['stock'] and ['off']. *)
Record Pattern := {
  signature : list byte;
  stock : list byte;
  off : list byte
}.

(** An element of [changes]: [(pattern_name, hex(i))]. *)
Definition ChangeRecord : Type := string * string.

Record MEDC17EmissionHandler := {
  options : gmap string bool;
  patterns : list (string * Pattern)
}.

(** The literal of [__init__], in insertion order. *)
Definition catalog : list (string * Pattern) :=
  [ ("DPF"%string,
      {| signature := [x44; x50; x46; x5f];
         stock := [x01; x01; x01; x00; x00];
         off := [x00; x00; x00; xff; xff] |});
    ("EGR"%string,
      {| signature := [x45; x47; x52; x56];
         stock := [x01; x01; x01; x00];
         off := [x00; x00; x00; xff] |});
    ("SCR"%string,
      {| signature := [x53; x43; x52; x5f];
         stock := [x01; x01; x01; x00; x00];
         off := [x00; x00; x00; xff; xff] |});
    ("StartStop"%string,
      {| signature := [x53; x54; x41; x52; x54];
         stock := [x01; x01; x00];
         off := [x00; x00; xff] |}) ].

(** [{'dpf': True, 'egr': True, 'scr': True, 'start_stop': True}] *)
Definition default_options : gmap string bool :=
  <["dpf"%string := true]>
    (<["egr"%string := true]>
      (<["scr"%string := true]>
        (<["start_stop"%string := true]> ∅))).

(** [options or {...}]: [None] and the empty dict are both falsy. *)
Definition init_options (opts : option (gmap string bool)) : gmap string bool :=
  match opts with
  | Some m => if decide (m = ∅) then default_options else m
  | None => default_options
  end.

(** [__init__], restricted to the attributes the engine reads. *)
Definition init (opts : option (gmap string bool)) : MEDC17EmissionHandler :=
  {| options := init_options opts; patterns := catalog |}.

(** ** The engine *)

Definition state : Type := list byte * list ChangeRecord.

(** The inner [for i in range(...)] loop.  Returning without a recursive
    call is the [break]. *)
Fixpoint scan_loop (pattern_name : string) (pattern : Pattern)
    (range : list nat) (st : state) : state :=
  match range with
  | [] => st
  | i :: range' =>
      let '(data, changes) := st in
      if bool_decide
           (slice i (i + length (signature pattern)) data = signature pattern)
      then
        let stock_start := i + length (signature pattern) in
        let stock_end := stock_start + length (stock pattern) in
        if bool_decide (slice stock_start stock_end data = stock pattern)
        then
          (set_slice stock_start stock_end (off pattern) data,
           changes ++ [(pattern_name, hex i)])
        else scan_loop pattern_name pattern range' st
      else scan_loop pattern_name pattern range' st
  end.

(** One iteration of the outer loop over [self.patterns.items()]. *)
Definition visit (opts : gmap string bool) (st : state)
    (item : string * Pattern) : state :=
  let '(pattern_name, pattern) := item in
  if negb (default false (opts !! lower pattern_name)) then st
  else
    scan_loop pattern_name pattern
      (seq 0 (length st.1 - length (signature pattern))) st.

Definition apply_modifications (self : MEDC17EmissionHandler)
    (data : list byte) : state :=
  foldl (visit (options self)) (data, []) (patterns self).

(** ** Vocabulary of the properties *)

(** The byte string [pat] is read back by the slice of its own length
    starting at offset [i]. *)
Definition occurs (pat : list byte) (i : nat) (data : list byte) : Prop :=
  slice i (i + length pat) data = pat.

#[global] Instance occurs_dec pat i data : Decision (occurs pat i data).
Proof. unfold occurs. apply _. Defined.

(** Both tests of the loop body succeed at offset [i]. *)
Definition matches (p : Pattern) (data : list byte) (i : nat) : Prop :=
  occurs (signature p) i data ∧
  occurs (stock p) (i + length (signature p)) data.

#[global] Instance matches_dec p data i : Decision (matches p data i).
Proof. unfold matches. apply _. Defined.

(** The slice assignment performed at offset [i]. *)
Definition patch (p : Pattern) (i : nat) (data : list byte) : list byte :=
  set_slice (i + length (signature p))
    (i + length (signature p) + length (stock p)) (off p) data.

(** The offsets of the scanned range at which the rule matches, ascending. *)
Definition match_offsets (p : Pattern) (data : list byte) : list nat :=
  filter (matches p data) (seq 0 (length data - length (signature p))).

Definition first_match (p : Pattern) (data : list byte) : option nat :=
  head (match_offsets p data).

(** The test of the outer loop, negated: the rule is evaluated. *)
Definition enabled (opts : gmap string bool) (pattern_name : string) : bool :=
  default false (opts !! lower pattern_name).

(** The half-open index range a patch at [i] writes to. *)
Definition in_region (p : Pattern) (i q : nat) : Prop :=
  i + length (signature p) ≤ q < i + length (signature p) + length (off p).

Definition pad : list byte := [x10; x11; x12; x13; x14; x15; x16; x17; x18; x19].

Definition only (k : string) : gmap string bool := <[k := true]> ∅.

Definition handler (opts : gmap string bool) : MEDC17EmissionHandler :=
  {| options := opts; patterns := catalog |}.

(** ** Overlapping windows, decided by evaluation

    The rules of the catalog do not disturb one another because their
    byte strings cannot overlap in a buffer.  That is a finite fact about
    the catalog; it is established by evaluating the checks below. *)

(** Window [A] sits at some offset and window [B] sits [d] places to its
    right.  [clashb A B d]: some index covered by both would have to hold
    two different bytes. *)
Definition clashb (A B : list byte) (d : Z) : bool :=
  existsb
    (λ t : nat,
       let k := (d + Z.of_nat t)%Z in
       (0 <=? k)%Z && (k <? Z.of_nat (length A))%Z &&
       bool_decide (A !! Z.to_nat k ≠ B !! t))
    (seq 0 (length B)).

(** For every displacement at which the windows do not clash, the range
    [[lo, hi)] counted from the start of [B] misses the range [[plo, phi)]
    counted from the start of [A]; with [same] set, displacement zero is
    exempt. *)
Definition separated (A B : list byte) (plo phi lo hi : nat) (same : bool)
    : bool :=
  forallb
    (λ k : nat,
       let d := (Z.of_nat k - Z.of_nat hi)%Z in
       clashb A B d
       || (d + Z.of_nat hi <=? Z.of_nat plo)%Z
       || (Z.of_nat phi <=? d + Z.of_nat lo)%Z
       || (same && (d =? 0)%Z))
    (seq 0 (hi + phi + 1)).

Definition window (p : Pattern) : list byte := signature p ++ stock p.
Definition patched_window (p : Pattern) : list byte := signature p ++ off p.

(** A patch by [p] creates no match of [p'], destroys no match of [p']
    other than the one it is applied to, and leaves alone every window
    that [p'] has patched. *)
Definition isolated (p p' : Pattern) : bool :=
  let plo := length (signature p) in
  let phi := length (signature p) + length (off p) in
  separated (patched_window p) (window p') plo phi 0 (length (window p')) false
  && separated (window p) (window p') plo phi 0 (length (window p'))
       (bool_decide (window p = window p'))
  && separated (window p) (patched_window p') plo phi
       0 (length (patched_window p')) false.

(** The conditions on a ruleset under which its rules act independently. *)
Definition well_separated (ps : list (string * Pattern)) : bool :=
  forallb
    (λ e : string * Pattern,
       bool_decide (length (off e.2) = length (stock e.2))
       && bool_decide (stock e.2 ≠ [])
       && bool_decide (off e.2 ≠ stock e.2)
       && forallb
            (λ e' : string * Pattern,
               isolated e.2 e'.2
               && (bool_decide (e.1 = e'.1)
                   || bool_decide (window e.2 ≠ window e'.2)))
            ps)
    ps.

(** A patch by [p] leaves alone every occurrence of the signature of [p']
    together with the [length (stock p')] bytes that follow it. *)
Definition spares_signature (p p' : Pattern) : bool :=
  separated (window p) (signature p')
    (length (signature p)) (length (signature p) + length (off p))
    0 (length (signature p') + length (stock p')) false.

(** ** Reference behaviour: rules deciding on the buffer the run started from

    One iteration that looks for its match in [data0], the buffer as it
    was before the run, and patches the current buffer there. *)
Definition visit_original (opts : gmap string bool) (data0 : list byte)
    (st : state) (item : string * Pattern) : state :=
  if enabled opts item.1 then
    match first_match item.2 data0 with
    | Some i => (patch item.2 i st.1, st.2 ++ [(item.1, hex i)])
    | None => st
    end
  else st.

(** ** The file layer

    [validate_file], [read_binary], [write_binary] and [process] talk to
    the operating system, to the log and to standard output.  What they do
    is modelled as the sequence of calls they make, in order; what the
    operating system answers is an input of the model.  Every call is made
    at most once in a run of [process], so the answers are functions of
    the arguments of the call. *)

Inductive Level := INFO | WARNING | ERROR.

Inductive Event :=
| Log (level : Level) (msg : string)    (* logging.info / warning / error *)
| Print (msg : string)                  (* print(msg) *)
| PathExists (path : string)            (* os.path.exists(path) *)
| Access (path : string)                (* os.access(path, os.R_OK) *)
| OpenRead (path : string)              (* open(path, 'rb') *)
| ReadAll (path : string)               (* f.read() *)
| OpenWrite (path : string)             (* open(path, 'wb') *)
| WriteAll (path : string) (data : list byte)   (* f.write(data) *)
| CloseWrite (path : string).           (* the close at the exit of [with] *)

(** The exceptions [validate_file] raises, and those of the file calls. *)
Inductive Exception :=
| FileNotFoundError (msg : string)
| PermissionError (msg : string)
| OSError (msg : string).

(** [str(e)], what [{e}] formats. *)
Definition str (e : Exception) : string :=
  match e with
  | FileNotFoundError msg | PermissionError msg | OSError msg => msg
  end.

(** The answers of the operating system; [None] is a call that returns
    normally. *)
Record OS := {
  os_path_exists : string → bool;
  os_access_R_OK : string → bool;
  os_open_rb : string → option Exception;
  os_read : string → Exception + list byte;
  os_open_wb : string → option Exception;
  os_write : string → list byte → option Exception;
  os_close_wb : string → option Exception
}.

(** Computations that make calls and may raise. *)
Definition M (A : Type) : Type := list Event * (Exception + A).

Definition ret {A} (a : A) : M A := ([], inr a).

Definition bind {A B} (m : M A) (k : A → M B) : M B :=
  match m with
  | (t, inl e) => (t, inl e)
  | (t, inr a) => (t ++ (k a).1, (k a).2)
  end.

Definition raise {A} (e : Exception) : M A := ([], inl e).

Definition emit (ev : Event) : M unit := ([ev], inr tt).

(** [try: m  except Exception as e: h e] *)
Definition try_except {A} (m : M A) (h : Exception → M A) : M A :=
  match m with
  | (t, inl e) => (t ++ (h e).1, (h e).2)
  | (t, inr a) => (t, inr a)
  end.

(** The exit of [with open(...) as f]: the file is closed whether the
    body raised or not, and an exception raised by the close (which
    flushes what was written) takes the place of the outcome of the
    body. *)
Definition with_close {A} (ev : Event) (closed : option Exception)
    (body : M A) : M A :=
  (body.1 ++ [ev],
   match closed with
   | Some e => inl e
   | None => body.2
   end).

Notation "x <- m ;; k" := (bind m (λ x, k))
  (at level 100, m at next level, right associativity).
Notation "m ;;; k" := (bind m (λ _, k))
  (at level 100, right associativity).

(** The handler with its file names. *)
Record FileHandler := {
  engine : MEDC17EmissionHandler;
  input_file : string;
  output_file : string
}.

Definition nl : string := String "010"%char "".

Fixpoint str_mul (s : string) (n : nat) : string :=
  match n with
  | 0 => ""
  | S n' => s +:+ str_mul s n'
  end.

Definition validate_file (os : OS) (self : FileHandler) : M unit :=
  emit (PathExists (input_file self)) ;;;
  if negb (os_path_exists os (input_file self)) then
    emit (Log ERROR ("Input file " +:+ input_file self +:+ " does not exist.")) ;;;
    raise (FileNotFoundError ("File " +:+ input_file self +:+ " not found."))
  else
    emit (Access (input_file self)) ;;;
    if negb (os_access_R_OK os (input_file self)) then
      emit (Log ERROR ("Input file " +:+ input_file self +:+ " is not readable.")) ;;;
      raise (PermissionError ("File " +:+ input_file self +:+ " is not readable."))
    else
      emit (Log INFO ("Validated input file " +:+ input_file self +:+ ".")).

Definition read_binary (os : OS) (self : FileHandler) : M (list byte) :=
  try_except
    (emit (OpenRead (input_file self)) ;;;
     match os_open_rb os (input_file self) with
     | Some e => raise e
     | None =>
         emit (Log INFO ("Reading binary file " +:+ input_file self +:+ ".")) ;;;
         emit (ReadAll (input_file self)) ;;;
         match os_read os (input_file self) with
         | inl e => raise e
         | inr data => ret data
         end
     end)
    (λ e,
       emit (Log ERROR ("Error reading file " +:+ input_file self +:+ ": "
                        +:+ str e)) ;;;
       raise e).

Definition write_binary (os : OS) (self : FileHandler) (data : list byte)
    : M unit :=
  try_except
    (emit (OpenWrite (output_file self)) ;;;
     match os_open_wb os (output_file self) with
     | Some e => raise e
     | None =>
         with_close (CloseWrite (output_file self))
           (os_close_wb os (output_file self))
           (emit (WriteAll (output_file self) data) ;;;
            match os_write os (output_file self) data with
            | Some e => raise e
            | None =>
                emit (Log INFO ("Modified file saved as "
                                +:+ output_file self +:+ "."))
            end)
     end)
    (λ e,
       emit (Log ERROR ("Error writing file " +:+ output_file self +:+ ": "
                        +:+ str e)) ;;;
       raise e).

(** [apply_modifications] together with the log records it emits. *)
Fixpoint scan_loop_log (pattern_name : string) (pattern : Pattern)
    (range : list nat) (st : state) : list Event * state :=
  match range with
  | [] => ([], st)
  | i :: range' =>
      let '(data, changes) := st in
      if bool_decide
           (slice i (i + length (signature pattern)) data = signature pattern)
      then
        let stock_start := i + length (signature pattern) in
        let stock_end := stock_start + length (stock pattern) in
        if bool_decide (slice stock_start stock_end data = stock pattern)
        then
          ([Log INFO (pattern_name +:+ " modified at offset " +:+ hex i +:+ ".")],
           (set_slice stock_start stock_end (off pattern) data,
            changes ++ [(pattern_name, hex i)]))
        else scan_loop_log pattern_name pattern range' st
      else scan_loop_log pattern_name pattern range' st
  end.

Definition visit_log (opts : gmap string bool) (acc : list Event * state)
    (item : string * Pattern) : list Event * state :=
  let '(pattern_name, pattern) := item in
  if negb (default false (opts !! lower pattern_name)) then
    (acc.1 ++ [Log INFO ("Skipping " +:+ pattern_name
                         +:+ " modification (disabled by user).")],
     acc.2)
  else
    let r := scan_loop_log pattern_name pattern
               (seq 0 (length acc.2.1 - length (signature pattern))) acc.2 in
    (acc.1 ++ r.1, r.2).

Definition apply_modifications_log (self : MEDC17EmissionHandler)
    (data : list byte) : list Event * state :=
  foldl (visit_log (options self)) ([], (data, [])) (patterns self).

(** [process]; it returns nothing, what it does is the sequence of calls. *)
Definition process (os : OS) (self : FileHandler) : list Event :=
  (try_except
     (validate_file os self ;;;
      data <- read_binary os self ;;
      let r := apply_modifications_log (engine self) data in
      (r.1, inr tt) ;;;
      match r.2.2 with
      | _ :: _ =>
          emit (Print (nl +:+ "Modification Report:")) ;;;
          emit (Print (str_mul "-" 40)) ;;;
          ((λ c : ChangeRecord,
              Print (c.1 +:+ " modified at offset " +:+ c.2)) <$> r.2.2,
           inr tt) ;;;
          write_binary os self r.2.1 ;;;
          emit (Print (nl +:+ "Modified file saved as " +:+ output_file self))
      | [] =>
          emit (Log WARNING
                  "No modifications applied. Patterns may not match the input file.") ;;;
          emit (Print
                  "No modifications applied. Patterns may not match the input file.")
      end)
     (λ e,
        emit (Log ERROR ("Processing failed: " +:+ str e)) ;;;
        emit (Print ("Error during processing: " +:+ str e)))).1.

(** ** Construction of the handler with its file names *)

(** [s.rfind(c)]: the last index of [c] in [s], or [-1]. *)
Fixpoint rfind_from (c : ascii) (i : nat) (l : list ascii) : Z :=
  match l with
  | [] => (-1)%Z
  | x :: l' =>
      let r := rfind_from c (S i) l' in
      if (0 <=? r)%Z then r
      else if bool_decide (x = c) then Z.of_nat i else (-1)%Z
  end.

Definition rfind (c : ascii) (l : list ascii) : Z := rfind_from c 0 l.

(** The [while filenameIndex < dotIndex] loop of [os.path.splitext]: the
    extension is split off at the first character of the file name that
    is not a dot; a name made of dots only has no extension. *)
Fixpoint splitext_loop (p : list ascii) (dotIndex : nat) (range : list nat)
    : list ascii * list ascii :=
  match range with
  | [] => (p, [])
  | filenameIndex :: range' =>
      if bool_decide (slice filenameIndex (filenameIndex + 1) p ≠ ["."%char])
      then (take dotIndex p, drop dotIndex p)
      else splitext_loop p dotIndex range'
  end.

(** [os.path.splitext] of [posixpath]: separator ["/"], no alternative
    separator, extension separator ["."]. *)
Definition splitext (path : string) : string * string :=
  let p := list_ascii_of_string path in
  let sepIndex := rfind "/"%char p in
  let dotIndex := rfind "."%char p in
  let r :=
    if (sepIndex <? dotIndex)%Z then
      splitext_loop p (Z.to_nat dotIndex)
        (seq (Z.to_nat (sepIndex + 1))
             (Z.to_nat dotIndex - Z.to_nat (sepIndex + 1)))
    else (p, [])
  in (string_of_list_ascii r.1, string_of_list_ascii r.2).

(** [__init__] with its file names.  [now] stands for
    [datetime.now().strftime('%Y%m%d%H%M%S')]; an [output_file] that is
    [None] or empty is replaced by the generated name.  Only the
    attributes are modelled, not the call of [setup_logging]. *)
Definition init_files (input_file : string) (output_file : option string)
    (opts : option (gmap string bool)) (now : string) : FileHandler :=
  let generated :=
    (splitext input_file).1 +:+ "_modified_" +:+ now +:+ ".bin" in
  {| engine := init opts;
     input_file := input_file;
     output_file :=
       match output_file with
       | Some o => if bool_decide (o = ""%string) then generated else o
       | None => generated
       end |}.

(** ** The command-line script *)

(** The answers to the y/n prompts are texts of arbitrary characters:
    lists of code points.  [str.isspace] of a code point: the ASCII
    controls 9 to 13 and 28 to 31, the space, and the Unicode white space
    U+0085, U+00A0, U+1680, U+2000 to U+200A, U+2028, U+2029, U+202F,
    U+205F and U+3000. *)
Definition is_space (c : N) : bool :=
  (((9 <=? c) && (c <=? 13)) || ((28 <=? c) && (c <=? 32))
   || (c =? 0x85) || (c =? 0xA0) || (c =? 0x1680)
   || ((0x2000 <=? c) && (c <=? 0x200A))
   || (c =? 0x2028) || (c =? 0x2029) || (c =? 0x202F)
   || (c =? 0x205F) || (c =? 0x3000))%N.

Fixpoint lstrip (s : list N) : list N :=
  match s with
  | [] => []
  | c :: s' => if is_space c then lstrip s' else s
  end.

Fixpoint rstrip (s : list N) : list N :=
  match s with
  | [] => []
  | c :: s' =>
      match rstrip s' with
      | [] => if is_space c then [] else [c]
      | r => c :: r
      end
  end.

(** [str.strip()] *)
Definition strip (s : list N) : list N := rstrip (lstrip s).

(** [input(...).strip().lower() == 'y'].  The case tables behind
    [str.lower] are not part of the program: [str_lower] stands for
    them. *)
Definition switch (str_lower : list N → list N) (answer : list N) : bool :=
  bool_decide (str_lower (strip answer) = [121%N]).

(** The [options] dict of the script. *)
Definition main_options (dpf_switch egr_switch scr_switch start_stop_switch : bool)
    : gmap string bool :=
  <["dpf"%string := dpf_switch]>
    (<["egr"%string := egr_switch]>
      (<["scr"%string := scr_switch]>
        (<["start_stop"%string := start_stop_switch]> ∅))).

(** The handler the script builds from the five answers it reads. *)
Definition main_handler (str_lower : list N → list N) (file_answer : string)
    (dpf_answer egr_answer scr_answer start_stop_answer : list N)
    (now : string) : FileHandler :=
  let input_file :=
    if bool_decide (file_answer = ""%string) then "ecu.bin"%string
    else file_answer in
  init_files input_file None
    (Some (main_options (switch str_lower dpf_answer)
             (switch str_lower egr_answer)
             (switch str_lower scr_answer)
             (switch str_lower start_stop_answer)))
    now.

(** Texts made of white space only. *)
Definition blank (s : list N) : bool := forallb is_space s.

(** Lower-casing of the ASCII letters, every other code point kept: a
    sample for [str_lower]. *)
Definition ascii_lower_points (s : list N) : list N :=
  (λ c, if ((65 <=? c) && (c <=? 90))%N then (c + 32)%N else c) <$> s.

#[global] Instance Level_eq_dec : EqDecision Level.
Proof. solve_decision. Defined.

#[global] Instance Event_eq_dec : EqDecision Event.
Proof. solve_decision. Defined.

(** An operating system that lets every call succeed and reads [data]. *)
Definition os_ok (data : list byte) : OS :=
  {| os_path_exists := λ _, true;
     os_access_R_OK := λ _, true;
     os_open_rb := λ _, None;
     os_read := λ _, inr data;
     os_open_wb := λ _, None;
     os_write := λ _ _, None;
     os_close_wb := λ _, None |}.

(** One on which the input file is missing. *)
Definition os_missing : OS :=
  {| os_path_exists := λ _, false;
     os_access_R_OK := λ _, false;
     os_open_rb := λ _, Some (OSError "No such file or directory");
     os_read := λ _, inl (OSError "No such file or directory");
     os_open_wb := λ _, None;
     os_write := λ _ _, None;
     os_close_wb := λ _, None |}.

Definition file_handler (opts : gmap string bool) (inp out : string)
    : FileHandler :=
  {| engine := handler opts; input_file := inp; output_file := out |}.

(** Membership in a trace that is given by appends and conses. *)
Ltac trace_cases H :=
  repeat match type of H with
         | _ ∈ _ ++ _ => apply elem_of_app in H as [H|H]
         | _ ∈ _ :: _ => apply elem_of_cons in H as [H|H]
         | _ ∈ [] => by apply not_elem_of_nil in H
         | @eq Event _ _ => first [discriminate H | injection H as ? ?; subst
                                  | injection H as ?; subst]
         end.

(** Case analysis on an entry of the catalog. *)
Ltac catalog_cases H :=
  unfold catalog in H;
  repeat (apply elem_of_cons in H as [H|H]; [simplify_eq|]);
  try (by apply not_elem_of_nil in H).

(** ** Slices *)

Lemma occurs_lookup pat i data :
  occurs pat i data ↔ ∀ t, t < length pat → data !! (i + t) = pat !! t.
Proof.
  unfold occurs, slice. replace (i + length pat - i) with (length pat) by lia.
  split.
  - intros H t Ht. rewrite <- H.
    by rewrite lookup_take_lt, lookup_drop.
  - intros H. apply list_eq. intros t.
    destruct (decide (t < length pat)) as [Ht|Ht].
    + by rewrite lookup_take_lt, lookup_drop, H.
    + rewrite lookup_take_ge by lia. symmetry. apply lookup_ge_None_2. lia.
Qed.

Lemma occurs_bound pat i data :
  occurs pat i data → pat ≠ [] → i + length pat ≤ length data.
Proof.
  intros H Hne. destruct pat as [|b pat]; [done|].
  apply occurs_lookup with (t := length pat) in H; [|simpl; lia].
  assert (is_Some (data !! (i + length pat))) as Hs.
  { rewrite H. apply lookup_lt_is_Some. simpl. lia. }
  apply lookup_lt_is_Some in Hs. simpl. lia.
Qed.

Lemma occurs_app a b i data :
  occurs (a ++ b) i data ↔ occurs a i data ∧ occurs b (i + length a) data.
Proof.
  rewrite !occurs_lookup. split.
  - intros H. split; intros t Ht.
    + rewrite H by (rewrite length_app; lia). by rewrite lookup_app_l.
    + replace (i + length a + t) with (i + (length a + t)) by lia.
      rewrite H by (rewrite length_app; lia).
      rewrite lookup_app_r by lia. f_equal. lia.
  - intros [Ha Hb] t Ht. rewrite length_app in Ht.
    destruct (decide (t < length a)) as [Hlt|Hge].
    + rewrite lookup_app_l by done. by apply Ha.
    + rewrite lookup_app_r by lia.
      rewrite <- Hb by lia. f_equal. lia.
Qed.

Lemma matches_occurs p data i :
  matches p data i ↔ occurs (signature p ++ stock p) i data.
Proof. unfold matches. by rewrite occurs_app. Qed.

(** ** The two loops, characterised *)

Lemma scan_loop_spec name p range data changes :
  scan_loop name p range (data, changes) =
    match head (filter (matches p data) range) with
    | Some i => (patch p i data, changes ++ [(name, hex i)])
    | None => (data, changes)
    end.
Proof.
  induction range as [|i range IH]; [done|].
  cbn [scan_loop]. rewrite filter_cons.
  destruct (decide (matches p data i)) as [[Hs Hk]|Hn].
  - unfold occurs in Hs, Hk.
    rewrite (bool_decide_eq_true_2 _ Hs), (bool_decide_eq_true_2 _ Hk). done.
  - rewrite IH. case_bool_decide as Hs; [|done].
    case_bool_decide as Hk; [|done]. destruct Hn. by split.
Qed.

Lemma visit_spec opts name p data changes :
  visit opts (data, changes) (name, p) =
    if enabled opts name then
      match first_match p data with
      | Some i => (patch p i data, changes ++ [(name, hex i)])
      | None => (data, changes)
      end
    else (data, changes).
Proof.
  unfold visit, enabled, first_match, match_offsets.
  destruct (default false (opts !! lower name)); simpl; [|done].
  apply scan_loop_spec.
Qed.

Lemma head_filter_seq_Some (P : nat → Prop) `{!∀ x, Decision (P x)} a n i :
  head (filter P (seq a n)) = Some i ↔
    (a ≤ i < a + n ∧ P i ∧ ∀ j, a ≤ j < i → ¬ P j).
Proof.
  revert a. induction n as [|n IH]; intros a; simpl.
  - split; [done|]. intros [? _]. lia.
  - rewrite filter_cons. destruct (decide (P a)) as [Ha|Ha]; simpl.
    + split.
      * intros [= <-]. split_and!; [lia..|done|]. intros j ?. lia.
      * intros (Hr & Hi & Hlt). f_equal.
        destruct (decide (a = i)) as [|Hne]; [done|].
        destruct (Hlt a); [lia|done].
    + rewrite IH. split.
      * intros (Hr & Hi & Hlt). split_and!; [lia..|done|].
        intros j Hj. destruct (decide (j = a)) as [->|]; [done|].
        apply Hlt. lia.
      * intros (Hr & Hi & Hlt).
        assert (a ≠ i) by (intros ->; done).
        split_and!; [lia..|done|]. intros j Hj. apply Hlt. lia.
Qed.

Lemma head_filter_seq_None (P : nat → Prop) `{!∀ x, Decision (P x)} a n :
  head (filter P (seq a n)) = None ↔ ∀ j, a ≤ j < a + n → ¬ P j.
Proof.
  rewrite head_None. split.
  - intros Hnil j Hj HP.
    assert (j ∈ filter P (seq a n)) as Hin
      by (apply list_elem_of_filter; split; [done|apply elem_of_seq; lia]).
    rewrite Hnil in Hin. by apply not_elem_of_nil in Hin.
  - intros Hall. destruct (filter P (seq a n)) as [|j l] eqn:E; [done|].
    assert (j ∈ filter P (seq a n)) as Hin by (rewrite E; left).
    apply list_elem_of_filter in Hin as [HP Hin]. apply elem_of_seq in Hin.
    destruct (Hall j); [lia|done].
Qed.

Lemma elem_of_match_offsets p data i :
  i ∈ match_offsets p data ↔
    i < length data - length (signature p) ∧ matches p data i.
Proof.
  unfold match_offsets. rewrite list_elem_of_filter, elem_of_seq.
  split; intros [? ?]; split; (done || lia).
Qed.

Lemma first_match_Some p data i :
  first_match p data = Some i ↔
    i < length data - length (signature p) ∧ matches p data i ∧
    ∀ j, j < i → ¬ matches p data j.
Proof.
  unfold first_match, match_offsets. rewrite head_filter_seq_Some.
  split; intros (? & ? & H); (split_and!; [lia..|done|]); intros j ?;
    apply H; lia.
Qed.

Lemma first_match_None p data :
  first_match p data = None ↔
    ∀ j, j < length data - length (signature p) → ¬ matches p data j.
Proof.
  unfold first_match, match_offsets. rewrite head_filter_seq_None.
  split; intros H j ?; apply H; lia.
Qed.

(** A match with non-empty stock bytes lies inside the scanned range. *)
Lemma matches_in_range p data i :
  stock p ≠ [] → matches p data i →
  i < length data - length (signature p).
Proof.
  intros Hne [_ Hk]. apply occurs_bound in Hk; [|done].
  destruct (stock p); [done|]. simpl in Hk. lia.
Qed.

(** ** The patch *)

Lemma patch_length p data i :
  length (off p) = length (stock p) → matches p data i →
  length (patch p i data) = length data.
Proof.
  intros Hlen [_ Hk]. unfold patch, set_slice.
  destruct (decide (stock p = [])) as [He|Hne].
  - rewrite He in *. destruct (off p); [|done]. simpl.
    rewrite Nat.add_0_r. by rewrite take_drop.
  - apply occurs_bound in Hk; [|done].
    rewrite !length_app, length_take, length_drop. lia.
Qed.

Lemma patch_lookup p data i q :
  length (off p) = length (stock p) → matches p data i →
  patch p i data !! q =
    if decide (in_region p i q)
    then off p !! (q - (i + length (signature p)))
    else data !! q.
Proof.
  intros Hlen [_ Hk]. unfold patch, set_slice, in_region.
  destruct (decide (stock p = [])) as [He|Hne].
  - rewrite He in *. destruct (off p); [|done]. simpl.
    rewrite Nat.add_0_r, take_drop. case_decide; [lia|done].
  - apply occurs_bound in Hk; [|done]. rewrite Hlen.
    set (a := i + length (signature p)) in *. set (n := length (stock p)) in *.
    case_decide as Hq.
    + rewrite lookup_app_r by (rewrite length_take; lia).
      rewrite length_take_le by lia. rewrite lookup_app_l by lia. done.
    + destruct (decide (q < a)).
      * rewrite lookup_app_l by (rewrite length_take; lia).
        by rewrite lookup_take_lt.
      * rewrite lookup_app_r by (rewrite length_take; lia).
        rewrite length_take_le by lia.
        rewrite lookup_app_r by lia. rewrite lookup_drop. f_equal. lia.
Qed.

(** The patched window reads signature followed by the off bytes. *)
Lemma patch_occurs p data i :
  length (off p) = length (stock p) → matches p data i →
  occurs (signature p ++ off p) i (patch p i data).
Proof.
  intros Hlen Hm. apply occurs_lookup. intros t Ht.
  rewrite length_app in Ht. rewrite patch_lookup by done.
  unfold in_region. case_decide as Hq.
  - rewrite lookup_app_r by lia. f_equal. lia.
  - rewrite lookup_app_l by lia. destruct Hm as [Hs _].
    apply occurs_lookup with (t := t) in Hs; [done|lia].
Qed.

Lemma slice_lookup {A} (l : list A) a b t :
  slice a b l !! t = if decide (t < b - a) then l !! (a + t) else None.
Proof.
  unfold slice. case_decide.
  - by rewrite lookup_take_lt, lookup_drop.
  - apply lookup_take_ge. lia.
Qed.

Lemma slice_ext {A} (l l' : list A) a b :
  (∀ q, a ≤ q < b → l !! q = l' !! q) → slice a b l = slice a b l'.
Proof.
  intros H. apply list_eq. intros t. rewrite !slice_lookup.
  case_decide; [|done]. apply H. lia.
Qed.

(** A slice that misses the patched range is not affected by the patch. *)
Lemma slice_patch_disjoint p data i a b :
  length (off p) = length (stock p) → matches p data i →
  b ≤ i + length (signature p) ∨
    i + length (signature p) + length (off p) ≤ a →
  slice a b (patch p i data) = slice a b data.
Proof.
  intros Hlen Hm Hd. apply slice_ext. intros q Hq.
  rewrite patch_lookup by done. unfold in_region. case_decide; [lia|done].
Qed.

Lemma occurs_patch_disjoint p data i B j :
  length (off p) = length (stock p) → matches p data i →
  j + length B ≤ i + length (signature p) ∨
    i + length (signature p) + length (off p) ≤ j →
  occurs B j (patch p i data) ↔ occurs B j data.
Proof.
  intros Hlen Hm Hd. unfold occurs. by rewrite slice_patch_disjoint.
Qed.

(** ** Soundness of the window checks *)

Lemma clashb_sound A B i j data :
  occurs A i data → occurs B j data →
  clashb A B (Z.of_nat j - Z.of_nat i) = false.
Proof.
  intros HA HB. apply not_true_iff_false. intros Hc.
  apply existsb_exists in Hc as (t & Hin & Hc). cbv zeta in Hc.
  apply list_elem_of_In, elem_of_seq in Hin.
  apply andb_true_iff in Hc as [Hc Hne].
  apply andb_true_iff in Hc as [H0 H1].
  apply Z.leb_le in H0. apply Z.ltb_lt in H1.
  apply bool_decide_eq_true in Hne. apply Hne.
  set (k := Z.to_nat (Z.of_nat j - Z.of_nat i + Z.of_nat t)).
  rewrite occurs_lookup in HA, HB.
  rewrite <- (HA k) by lia. rewrite <- (HB t) by lia. f_equal. lia.
Qed.

Lemma separated_sound A B plo phi lo hi same i j data :
  separated A B plo phi lo hi same = true →
  occurs A i data → occurs B j data →
  j + hi ≤ i + plo ∨ i + phi ≤ j + lo ∨ (same = true ∧ i = j).
Proof.
  intros Hsep HA HB.
  destruct (decide (j + hi < i)) as [|Hlo]; [left; lia|].
  destruct (decide (i + phi < j)) as [|Hhi]; [right; left; lia|].
  unfold separated in Hsep. rewrite forallb_forall in Hsep.
  specialize (Hsep (j + hi - i)). cbv zeta in Hsep.
  replace (Z.of_nat (j + hi - i) - Z.of_nat hi)%Z
    with (Z.of_nat j - Z.of_nat i)%Z in Hsep by lia.
  rewrite (clashb_sound A B i j data HA HB) in Hsep. simpl in Hsep.
  assert (In (j + hi - i) (seq 0 (hi + phi + 1))) as Hin
    by (apply list_elem_of_In, elem_of_seq; lia).
  apply Hsep in Hin.
  apply orb_true_iff in Hin as [Hin|Hin];
    [apply orb_true_iff in Hin as [Hin|Hin]|].
  - apply Z.leb_le in Hin. left. lia.
  - apply Z.leb_le in Hin. right. left. lia.
  - apply andb_true_iff in Hin as [-> Hin]. apply Z.eqb_eq in Hin.
    right. right. split; [done|lia].
Qed.

(** ** The outer loop *)

Lemma visit_cases opts data changes n p :
  ((enabled opts n = false ∨ first_match p data = None) ∧
   visit opts (data, changes) (n, p) = (data, changes)) ∨
  (∃ i, enabled opts n = true ∧ first_match p data = Some i ∧
        visit opts (data, changes) (n, p) =
          (patch p i data, changes ++ [(n, hex i)])).
Proof.
  rewrite visit_spec. destruct (enabled opts n); [|left; auto].
  destruct (first_match p data) as [i|]; [right; eauto|left; auto].
Qed.

(** Invariants of the run: it is enough to look at the iterations that
    patch. *)
Lemma run_inv (P : list byte → list ChangeRecord → Prop) opts rs :
  (∀ d c n p i,
     (n, p) ∈ rs → enabled opts n = true → first_match p d = Some i →
     P d c → P (patch p i d) (c ++ [(n, hex i)])) →
  ∀ data changes,
    P data changes →
    P (foldl (visit opts) (data, changes) rs).1
      (foldl (visit opts) (data, changes) rs).2.
Proof.
  induction rs as [|[n p] rs IH]; intros Hstep data changes HP; [done|].
  cbn [foldl].
  destruct (visit_cases opts data changes n p)
    as [[_ ->]|(i & He & Hf & ->)].
  - apply IH; [|done]. intros d c n' p' i Hin. apply Hstep. by right.
  - apply IH.
    + intros d c n' p' i' Hin. apply Hstep. by right.
    + apply (Hstep data changes n p i); [left|done..].
Qed.

(** When no evaluated rule matches, nothing happens. *)
Lemma run_no_match opts rs data changes :
  (∀ n p, (n, p) ∈ rs → enabled opts n = true → first_match p data = None) →
  foldl (visit opts) (data, changes) rs = (data, changes).
Proof.
  induction rs as [|[n p] rs IH]; intros Hnone; [done|]. cbn [foldl].
  rewrite visit_spec.
  destruct (enabled opts n) eqn:He.
  - rewrite (Hnone n p) by (done || left).
    apply IH. intros n' p' Hin. apply Hnone. by right.
  - apply IH. intros n' p' Hin. apply Hnone. by right.
Qed.

(** The records are appended, one per patching iteration at most, in the
    order of the iterations. *)
Lemma run_changes opts rs data changes :
  ∃ extra,
    (foldl (visit opts) (data, changes) rs).2 = changes ++ extra ∧
    extra.*1 `sublist_of` rs.*1.
Proof.
  revert data changes.
  induction rs as [|[n p] rs IH]; intros data changes; cbn [foldl].
  - exists []. simpl. by rewrite app_nil_r.
  - destruct (visit_cases opts data changes n p)
      as [[_ ->]|(i & _ & _ & ->)].
    + destruct (IH data changes) as (extra & -> & Hsub).
      exists extra. split; [done|]. by apply sublist_cons.
    + destruct (IH (patch p i data) (changes ++ [(n, hex i)]))
        as (extra & -> & Hsub).
      exists ((n, hex i) :: extra). rewrite <- app_assoc. split; [done|].
      simpl. by apply sublist_skip.
Qed.

(** Every record names an evaluated rule. *)
Lemma run_changes_enabled opts rs data :
  ∀ r, r ∈ (foldl (visit opts) (data, []) rs).2 → enabled opts r.1 = true.
Proof.
  apply (run_inv (λ _ c, ∀ r, r ∈ c → enabled opts r.1 = true)).
  - intros d c n p i _ He _ Hc r Hr.
    apply elem_of_app in Hr as [Hr|Hr]; [by apply Hc|].
    apply list_elem_of_singleton in Hr as ->. done.
  - intros r Hr. by apply not_elem_of_nil in Hr.
Qed.

(** With off bytes as long as the stock bytes, the buffer keeps its
    length. *)
Lemma run_length opts rs data changes :
  Forall (λ e : string * Pattern, length (off e.2) = length (stock e.2)) rs →
  length (foldl (visit opts) (data, changes) rs).1 = length data.
Proof.
  intros Hlen.
  apply (run_inv (λ d _, length d = length data)); [|done].
  intros d c n p i Hin _ Hf <-.
  rewrite Forall_forall in Hlen. apply Hlen in Hin. simpl in Hin.
  apply first_match_Some in Hf as (_ & Hm & _). by apply patch_length.
Qed.

(** Bytes outside the ranges of the recorded patches are not written. *)
Lemma run_frame opts rs data :
  Forall (λ e : string * Pattern, length (off e.2) = length (stock e.2)) rs →
  ∀ q,
    (∀ n p j, (n, p) ∈ rs →
       (n, hex j) ∈ (foldl (visit opts) (data, []) rs).2 →
       ¬ in_region p j q) →
    (foldl (visit opts) (data, []) rs).1 !! q = data !! q.
Proof.
  intros Hlen q.
  apply (run_inv (λ d c,
    (∀ n p j, (n, p) ∈ rs → (n, hex j) ∈ c → ¬ in_region p j q) →
    d !! q = data !! q)); [|done].
  intros d c n p i Hin _ Hf IH Hout.
  rewrite Forall_forall in Hlen. pose proof (Hlen _ Hin) as Hl. simpl in Hl.
  apply first_match_Some in Hf as (_ & Hm & _).
  rewrite patch_lookup by done. case_decide as Hq.
  - destruct (Hout n p i); [done| |done].
    apply elem_of_app. right. by apply list_elem_of_singleton.
  - apply IH. intros n' p' j Hin' Hc. apply (Hout n' p' j); [done|].
    apply elem_of_app. by left.
Qed.

(** ** Rules that cannot overlap act independently *)

Section independence.
Variable ps : list (string * Pattern).
Hypothesis Hsep : well_separated ps = true.

Lemma ws_entry n p :
  (n, p) ∈ ps →
  length (off p) = length (stock p) ∧ stock p ≠ [] ∧ off p ≠ stock p.
Proof using Hsep.
  intros Hin. unfold well_separated in Hsep.
  rewrite forallb_forall in Hsep.
  apply list_elem_of_In, Hsep in Hin. simpl in Hin.
  apply andb_true_iff in Hin as [Hin _].
  apply andb_true_iff in Hin as [Hin Hne].
  apply andb_true_iff in Hin as [Hlen Hk].
  apply bool_decide_eq_true in Hlen, Hk, Hne. done.
Qed.

Lemma ws_pair n p n' p' :
  (n, p) ∈ ps → (n', p') ∈ ps →
  isolated p p' = true ∧ (window p = window p' → n = n').
Proof using Hsep.
  intros Hin Hin'. unfold well_separated in Hsep.
  rewrite forallb_forall in Hsep.
  apply list_elem_of_In, Hsep in Hin. simpl in Hin.
  apply andb_true_iff in Hin as [_ Hin].
  rewrite forallb_forall in Hin.
  apply list_elem_of_In, Hin in Hin'. simpl in Hin'.
  apply andb_true_iff in Hin' as [Hiso Hw]. split; [done|].
  intros Heq. apply orb_true_iff in Hw as [Hw|Hw].
  - by apply bool_decide_eq_true in Hw.
  - apply bool_decide_eq_true in Hw. done.
Qed.

(** The patched offset no longer matches. *)
Lemma patch_removes n p data i :
  (n, p) ∈ ps → matches p data i → ¬ matches p (patch p i data) i.
Proof using Hsep.
  intros Hin Hm Hm'. destruct (ws_entry _ _ Hin) as (Hlen & _ & Hne).
  pose proof (patch_occurs _ _ _ Hlen Hm) as Ho.
  apply occurs_app in Ho as [_ Ho]. destruct Hm' as [_ Hk].
  unfold occurs in Ho, Hk. rewrite Hlen in Ho. congruence.
Qed.

(** A patch creates no match. *)
Lemma patch_no_new_match n p n' p' data i j :
  (n, p) ∈ ps → (n', p') ∈ ps → matches p data i →
  matches p' (patch p i data) j → matches p' data j.
Proof using Hsep.
  intros Hin Hin' Hm Hm'.
  destruct (ws_entry _ _ Hin) as (Hlen & _ & _).
  destruct (ws_pair _ _ _ _ Hin Hin') as [Hiso _].
  unfold isolated in Hiso. cbv zeta in Hiso.
  apply andb_true_iff in Hiso as [Hiso _].
  apply andb_true_iff in Hiso as [Hiso _].
  rewrite matches_occurs in Hm'. fold (window p') in Hm'.
  pose proof (patch_occurs _ _ _ Hlen Hm) as Ho.
  destruct (separated_sound _ _ _ _ _ _ _ _ _ _ Hiso Ho Hm')
    as [Hd|[Hd|[? _]]]; [| |done];
    apply matches_occurs; fold (window p');
    by apply (occurs_patch_disjoint p data i) in Hm'; [|done|done|lia].
Qed.

(** A patch destroys no match but the one it is applied to. *)
Lemma patch_keeps_match n p n' p' data i j :
  (n, p) ∈ ps → (n', p') ∈ ps → matches p data i → matches p' data j →
  n ≠ n' ∨ i ≠ j → matches p' (patch p i data) j.
Proof using Hsep.
  intros Hin Hin' Hm Hm' Hne.
  destruct (ws_entry _ _ Hin) as (Hlen & _ & _).
  destruct (ws_pair _ _ _ _ Hin Hin') as [Hiso Hinj].
  unfold isolated in Hiso. cbv zeta in Hiso.
  apply andb_true_iff in Hiso as [Hiso _].
  apply andb_true_iff in Hiso as [_ Hiso].
  pose proof Hm as Ho. rewrite matches_occurs in Ho, Hm'.
  fold (window p) in Ho. fold (window p') in Hm'.
  destruct (separated_sound _ _ _ _ _ _ _ _ _ _ Hiso Ho Hm')
    as [Hd|[Hd|[Hw Hij]]].
  - apply matches_occurs; fold (window p').
    apply (occurs_patch_disjoint p data i); [done|done|lia|done].
  - apply matches_occurs; fold (window p').
    apply (occurs_patch_disjoint p data i); [done|done|lia|done].
  - apply bool_decide_eq_true in Hw. destruct Hne as [Hne|Hne]; [|done].
    destruct Hne. by apply Hinj.
Qed.

(** A patch leaves every already patched window as it is. *)
Lemma patch_keeps_patched n p n' p' data i j :
  (n, p) ∈ ps → (n', p') ∈ ps → matches p data i →
  occurs (patched_window p') j data →
  occurs (patched_window p') j (patch p i data).
Proof using Hsep.
  intros Hin Hin' Hm Ho'.
  destruct (ws_entry _ _ Hin) as (Hlen & _ & _).
  destruct (ws_pair _ _ _ _ Hin Hin') as [Hiso _].
  unfold isolated in Hiso. cbv zeta in Hiso.
  apply andb_true_iff in Hiso as [_ Hiso].
  pose proof Hm as Ho. rewrite matches_occurs in Ho. fold (window p) in Ho.
  destruct (separated_sound _ _ _ _ _ _ _ _ _ _ Hiso Ho Ho')
    as [Hd|[Hd|[? _]]]; [| |done];
    (apply (occurs_patch_disjoint p data i); [done|done|lia|done]).
Qed.

(** *** Whole runs over rules of the set *)

Lemma run_no_new_match opts rs data changes n' p' j :
  rs ⊆ ps → (n', p') ∈ ps →
  matches p' (foldl (visit opts) (data, changes) rs).1 j →
  matches p' data j.
Proof using Hsep.
  intros Hsub Hin'.
  apply (run_inv (λ d _, matches p' d j → matches p' data j)); [|done].
  intros d c n p i Hin _ Hf IH Hm. apply IH.
  apply first_match_Some in Hf as (_ & Hmi & _).
  apply (patch_no_new_match n p n' p' d i j); [by apply Hsub|done..].
Qed.

(** A rule with at most one match has none left once it was evaluated. *)
Lemma visit_exhausts opts data changes n p :
  (n, p) ∈ ps → enabled opts n = true →
  length (match_offsets p data) ≤ 1 →
  ∀ j, ¬ matches p (visit opts (data, changes) (n, p)).1 j.
Proof using Hsep.
  intros Hin He Huniq j Hm.
  destruct (ws_entry _ _ Hin) as (_ & Hne & _).
  destruct (visit_cases opts data changes n p)
    as [[[Hd|Hnone] Hv]|(i & _ & Hf & Hv)]; rewrite Hv in Hm; simpl in Hm.
  - congruence.
  - rewrite first_match_None in Hnone.
    by eapply Hnone; [eapply matches_in_range|].
  - pose proof Hf as Hf'.
    apply first_match_Some in Hf' as (Hi & Hmi & _).
    pose proof (patch_no_new_match n p n p data i j Hin Hin Hmi Hm) as Hj.
    assert (j = i) as ->.
    { pose proof (matches_in_range _ _ _ Hne Hj) as Hjr.
      assert (i ∈ match_offsets p data) as Hi'
        by by apply elem_of_match_offsets.
      assert (j ∈ match_offsets p data) as Hj'
        by by apply elem_of_match_offsets.
      destruct (match_offsets p data) as [|x [|y l]];
        [by apply not_elem_of_nil in Hi'| |simpl in Huniq; lia].
      apply list_elem_of_singleton in Hi', Hj'. congruence. }
    by eapply patch_removes.
Qed.

Lemma match_offsets_mono p d d' :
  stock p ≠ [] → length d' = length d →
  (∀ j, matches p d' j → matches p d j) →
  length (match_offsets p d') ≤ length (match_offsets p d).
Proof.
  intros Hne Hlen Hmono. unfold match_offsets. rewrite Hlen.
  induction (seq 0 (length d - length (signature p))) as [|x l IH];
    [done|].
  rewrite !filter_cons.
  destruct (decide (matches p d' x)) as [Hx|Hx].
  - rewrite decide_True by auto. simpl. lia.
  - case_decide; simpl; lia.
Qed.

Lemma run_exhausts opts rs :
  rs ⊆ ps →
  ∀ data changes,
    (∀ n p, (n, p) ∈ rs → enabled opts n = true →
       length (match_offsets p data) ≤ 1) →
    ∀ n p j, (n, p) ∈ rs → enabled opts n = true →
      ¬ matches p (foldl (visit opts) (data, changes) rs).1 j.
Proof using Hsep.
  induction rs as [|[n0 p0] rs IH]; intros Hsub data changes Huniq n p j Hin He.
  { by apply not_elem_of_nil in Hin. }
  assert ((n0, p0) ∈ ps) as Hin0 by (apply Hsub; left).
  assert (rs ⊆ ps) as Hsub' by (intros e ?; apply Hsub; by right).
  cbn [foldl].
  destruct (visit opts (data, changes) (n0, p0)) as [d1 c1] eqn:Hv.
  assert (∀ n' p' j', (n', p') ∈ ps → matches p' d1 j' → matches p' data j')
    as Hmono.
  { intros n' p' j' Hin' Hm.
    apply (run_no_new_match opts [(n0, p0)] data changes n' p' j');
      [|done|cbn [foldl]; by rewrite Hv].
    intros e He'. apply list_elem_of_singleton in He' as ->. done. }
  assert (length d1 = length data) as Hlen1.
  { pose proof (run_length opts [(n0, p0)] data changes) as Hl.
    cbn [foldl] in Hl. rewrite Hv in Hl. apply Hl.
    constructor; [|done]. by destruct (ws_entry _ _ Hin0). }
  apply elem_of_cons in Hin as [[= -> ->]|Hin].
  - intros Hm.
    apply (run_no_new_match opts rs d1 c1 n0 p0 j Hsub' Hin0) in Hm.
    pose proof (visit_exhausts opts data changes n0 p0 Hin0 He) as Hx.
    rewrite Hv in Hx. eapply Hx; [|done]. apply (Huniq n0 p0); [left|done].
  - apply (IH Hsub' d1 c1) with (n := n); [|done..].
    intros n' p' Hin' He'.
    assert ((n', p') ∈ ps) as Hps by by apply Hsub'.
    destruct (ws_entry _ _ Hps) as (_ & Hne & _).
    etrans; [apply match_offsets_mono; [done|done|]|].
    + intros j'. by apply (Hmono n' p').
    + apply (Huniq n' p'); [by right|done].
Qed.

(** Rules evaluated earlier leave the first match of a later rule where
    it is. *)
Lemma run_keeps_first_match opts rs data changes n p i :
  rs ⊆ ps → (n, p) ∈ ps → n ∉ rs.*1 →
  matches p data i → (∀ j, j < i → ¬ matches p data j) →
  matches p (foldl (visit opts) (data, changes) rs).1 i ∧
  ∀ j, j < i → ¬ matches p (foldl (visit opts) (data, changes) rs).1 j.
Proof using Hsep.
  intros Hsub Hin Hfresh Hm Hfirst.
  apply (run_inv (λ d _, matches p d i ∧ ∀ j, j < i → ¬ matches p d j));
    [|done].
  intros d c n' p' i' Hin' _ Hf [Hmi Hlt].
  apply first_match_Some in Hf as (_ & Hm' & _). split.
  - eapply (patch_keeps_match n' p' n p); [by apply Hsub|done..|].
    left. intros ->. apply Hfresh.
    apply list_elem_of_fmap. by exists (n, p').
  - intros j Hj Hmj. apply (Hlt j Hj).
    eapply (patch_no_new_match n' p' n p); [by apply Hsub|done..].
Qed.

(** Rules evaluated later leave a patched window and its record alone. *)
Lemma run_keeps_patched opts rs data changes n p i r :
  rs ⊆ ps → (n, p) ∈ ps →
  occurs (patched_window p) i data → r ∈ changes →
  occurs (patched_window p) i (foldl (visit opts) (data, changes) rs).1 ∧
  r ∈ (foldl (visit opts) (data, changes) rs).2.
Proof using Hsep.
  intros Hsub Hin Ho Hr.
  apply (run_inv (λ d c, occurs (patched_window p) i d ∧ r ∈ c)); [|done].
  intros d c n' p' i' Hin' _ Hf [Hoi Hrc].
  apply first_match_Some in Hf as (_ & Hm' & _). split.
  - eapply (patch_keeps_patched n' p' n p); [by apply Hsub|done..].
  - apply elem_of_app. by left.
Qed.

(** An evaluated rule patches its first match of the original buffer,
    whatever the other rules do before and after. *)
Lemma run_patches_first_match opts pre post n p data i :
  ps = pre ++ (n, p) :: post → n ∉ pre.*1 →
  enabled opts n = true →
  matches p data i → (∀ j, j < i → ¬ matches p data j) →
  occurs (patched_window p) i (foldl (visit opts) (data, []) ps).1 ∧
  (n, hex i) ∈ (foldl (visit opts) (data, []) ps).2.
Proof using Hsep.
  intros Hps Hfresh He Hm Hfirst.
  assert ((n, p) ∈ ps) as Hin
    by (rewrite Hps; apply elem_of_app; right; left).
  assert (pre ⊆ ps) as Hpre
    by (intros e ?; rewrite Hps; apply elem_of_app; by left).
  assert (post ⊆ ps) as Hpost
    by (intros e ?; rewrite Hps; apply elem_of_app; right; by right).
  destruct (ws_entry _ _ Hin) as (Hlen & Hne & _).
  rewrite Hps at 1 2. rewrite foldl_app. cbn [foldl].
  pose proof (run_keeps_first_match opts pre data [] n p i
                Hpre Hin Hfresh Hm Hfirst) as [Hm1 Hfirst1].
  destruct (foldl (visit opts) (data, []) pre) as [d1 c1].
  simpl in Hm1, Hfirst1. rewrite visit_spec, He.
  assert (first_match p d1 = Some i) as ->.
  { apply first_match_Some. split_and!; [|done..].
    by apply matches_in_range. }
  apply (run_keeps_patched opts post _ _ n p); [done..| |].
  - by apply patch_occurs.
  - apply elem_of_app. right. by apply list_elem_of_singleton.
Qed.

(** *** Independence of the rules *)

Lemma first_match_ext p d d' :
  length d = length d' → (∀ j, matches p d j ↔ matches p d' j) →
  first_match p d = first_match p d'.
Proof.
  intros Hlen Hiff. unfold first_match, match_offsets. rewrite Hlen.
  f_equal. apply list_filter_iff. intros j. apply Hiff.
Qed.

(** Every rule finds in the current buffer the match it has in the buffer
    the run started from. *)
Lemma run_independent opts data rs :
  rs ⊆ ps → NoDup rs.*1 →
  ∀ cur c,
    length cur = length data →
    (∀ n p j, (n, p) ∈ rs → matches p cur j ↔ matches p data j) →
    foldl (visit opts) (cur, c) rs =
    foldl (visit_original opts data) (cur, c) rs.
Proof using Hsep.
  induction rs as [|[n p] rs IH]; intros Hsub Hnd cur c Hlen Hiff; [done|].
  assert ((n, p) ∈ ps) as Hin by (apply Hsub; left).
  assert (rs ⊆ ps) as Hsub' by (intros e ?; apply Hsub; by right).
  simpl in Hnd. apply NoDup_cons in Hnd as [Hfresh Hnd].
  destruct (ws_entry _ _ Hin) as (Hl & _ & _).
  cbn [foldl]. rewrite visit_spec. unfold visit_original at 2. simpl.
  assert (first_match p cur = first_match p data) as Hfm.
  { apply first_match_ext; [done|]. intros j. apply (Hiff n). left. }
  rewrite <- Hfm.
  destruct (enabled opts n); [|apply IH; try done;
    intros n' p' j ?; apply (Hiff n'); by right].
  destruct (first_match p cur) as [i|] eqn:Hf; [|apply IH; try done;
    intros n' p' j ?; apply (Hiff n'); by right].
  apply first_match_Some in Hf as (_ & Hm & _).
  apply IH; [done|done|by rewrite patch_length| ].
  intros n' p' j Hin'.
  assert (n ≠ n') as Hne.
  { intros ->. apply Hfresh. apply list_elem_of_fmap. by exists (n', p'). }
  rewrite <- (Hiff n' p' j) by by right. split.
  - apply (patch_no_new_match n p n' p'); [done|by apply Hsub'|done].
  - intros Hm'.
    apply (patch_keeps_match n p n' p'); [done|by apply Hsub'|done|done|by left].
Qed.

(** Every byte that differs from the original one lies in a window that
    has been patched, at an index where the original byte was the stock
    byte of that window. *)
Lemma run_changed_bytes opts rs data :
  rs ⊆ ps →
  ∀ q,
    (foldl (visit opts) (data, []) rs).1 !! q = data !! q ∨
    ∃ n p j,
      (n, p) ∈ ps ∧ in_region p j q ∧
      occurs (patched_window p) j (foldl (visit opts) (data, []) rs).1 ∧
      data !! q = stock p !! (q - (j + length (signature p))).
Proof using Hsep.
  intros Hsub.
  apply (run_inv (λ d _, ∀ q,
    d !! q = data !! q ∨
    ∃ n p j, (n, p) ∈ ps ∧ in_region p j q ∧
             occurs (patched_window p) j d ∧
             data !! q = stock p !! (q - (j + length (signature p)))));
    [|by left].
  intros d c n p i Hin _ Hf IH q.
  apply Hsub in Hin.
  apply first_match_Some in Hf as (_ & Hm & _).
  destruct (ws_entry _ _ Hin) as (Hl & _ & _).
  destruct (decide (in_region p i q)) as [Hq|Hq].
  - right. exists n, p, i. split_and!; [done..|by apply patch_occurs|].
    destruct (IH q) as [<-|(n' & p' & j & Hin' & Hq' & Ho' & _)].
    + destruct Hm as [_ Hk]. rewrite occurs_lookup in Hk.
      unfold in_region in Hq. rewrite <- Hk by lia. f_equal. lia.
    + exfalso.
      destruct (ws_pair _ _ _ _ Hin Hin') as [Hiso _].
      unfold isolated in Hiso. cbv zeta in Hiso.
      apply andb_true_iff in Hiso as [_ Hiso].
      pose proof Hm as Hw. rewrite matches_occurs in Hw.
      fold (window p) in Hw.
      destruct (separated_sound _ _ _ _ _ _ _ _ _ _ Hiso Hw Ho')
        as [Hd|[Hd|[? _]]]; [| |done];
        unfold in_region, patched_window in *;
        rewrite ?length_app in *; lia.
  - rewrite patch_lookup by done. rewrite decide_False by done.
    destruct (IH q) as [Heq|(n' & p' & j & Hin' & Hq' & Ho' & Hd)];
      [by left|].
    right. exists n', p', j. split_and!; [done..| |done].
    by apply (patch_keeps_patched n p n' p').
Qed.
End independence.

(** * The catalog and the claims about the engine *)

Example catalog_well_separated : well_separated catalog = true.
Proof. vm_compute. reflexivity. Qed.

(** ** Scenarios of the specification, evaluated *)

Example dpf_scenario :
  apply_modifications (handler (only "dpf"))
    ([x44; x50; x46; x5f] ++ [x01; x01; x01; x00; x00] ++ pad)
  = ([x44; x50; x46; x5f] ++ [x00; x00; x00; xff; xff] ++ pad,
     [("DPF"%string, "0x0"%string)]).
Proof. vm_compute. reflexivity. Qed.

Example egr_mismatch_scenario :
  let buf := [x45; x47; x52; x56] ++ [x02; x01; x01; x00] ++ pad in
  apply_modifications (handler (only "egr")) buf = (buf, []).
Proof. vm_compute. reflexivity. Qed.

(** ** The rule catalog *)

(** C7.  The catalog built by [__init__] is, whatever options are passed,
    the four rules DPF, EGR, SCR, StartStop in this order, and their
    signature, stock and off bytes have the values of the table (DPF:
    signature 44 50 46 5F, stock 01 01 01 00 00, off 00 00 00 FF FF, and
    so on). *)
Theorem catalog_contents (opts : option (gmap string bool)) :
  map (λ e : string * Pattern,
         (e.1, map Byte.to_N (signature e.2), map Byte.to_N (stock e.2),
          map Byte.to_N (off e.2)))
      (patterns (init opts))
  = [ ("DPF"%string, [0x44; 0x50; 0x46; 0x5F], [0x01; 0x01; 0x01; 0x00; 0x00],
       [0x00; 0x00; 0x00; 0xFF; 0xFF]);
      ("EGR"%string, [0x45; 0x47; 0x52; 0x56], [0x01; 0x01; 0x01; 0x00],
       [0x00; 0x00; 0x00; 0xFF]);
      ("SCR"%string, [0x53; 0x43; 0x52; 0x5F], [0x01; 0x01; 0x01; 0x00; 0x00],
       [0x00; 0x00; 0x00; 0xFF; 0xFF]);
      ("StartStop"%string, [0x53; 0x54; 0x41; 0x52; 0x54], [0x01; 0x01; 0x00],
       [0x00; 0x00; 0xFF]) ]%N.
Proof. reflexivity. Qed.

Lemma catalog_same_length :
  Forall (λ e : string * Pattern, length (off e.2) = length (stock e.2)) catalog.
Proof. repeat constructor. Qed.

Lemma catalog_names_NoDup : NoDup catalog.*1.
Proof. apply (bool_decide_unpack _). vm_compute. exact I. Qed.

(** ** Length and order *)

(** C8.  Every rule of the catalog has off bytes exactly as long as its
    stock bytes, and so, for every buffer and every enabled mapping, the
    buffer after [apply_modifications] is as long as before. *)
Theorem buffer_length_preserved :
  Forall (λ e : string * Pattern, length (off e.2) = length (stock e.2))
    catalog ∧
  ∀ (opts : gmap string bool) (data : list byte),
    length (apply_modifications (handler opts) data).1 = length data.
Proof.
  split; [apply catalog_same_length|]. intros opts data.
  apply run_length, catalog_same_length.
Qed.

Lemma changes_sublist (self : MEDC17EmissionHandler) (data : list byte) :
  (apply_modifications self data).2.*1 `sublist_of` (patterns self).*1.
Proof.
  unfold apply_modifications.
  destruct (run_changes (options self) (patterns self) data [])
    as (extra & -> & Hsub). done.
Qed.

Lemma catalog_changes_NoDup (opts : gmap string bool) (data : list byte) :
  NoDup (apply_modifications (handler opts) data).2.*1.
Proof.
  eapply sublist_NoDup; [apply catalog_names_NoDup|].
  apply (changes_sublist (handler opts)).
Qed.

(** C9.  For every handler and buffer the names of the returned records
    form a subsequence of the rule names in iteration order: at most one
    record per rule, in rule order whatever the offsets are.  With the
    catalog no name is recorded twice. *)
Theorem changes_follow_rule_order :
  (∀ (self : MEDC17EmissionHandler) (data : list byte),
     (apply_modifications self data).2.*1 `sublist_of` (patterns self).*1) ∧
  (∀ (opts : gmap string bool) (data : list byte),
     NoDup (apply_modifications (handler opts) data).2.*1).
Proof.
  split; [apply changes_sublist|apply catalog_changes_NoDup].
Qed.

(** The order is the rule order even when the offsets descend. *)
Example changes_not_in_offset_order :
  (apply_modifications (handler default_options)
     ([x45; x47; x52; x56; x01; x01; x01; x00] ++
      [x44; x50; x46; x5f; x01; x01; x01; x00; x00] ++ pad)).2
  = [("DPF"%string, "0x8"%string); ("EGR"%string, "0x0"%string)].
Proof. vm_compute. reflexivity. Qed.

(** ** Totality and short buffers *)

(** C5.  [apply_modifications] is defined on every handler and every
    buffer, the empty one included: both loops run over finite ranges and
    every slice is clamped, so there is a result for every input.  When
    the buffer is no longer than the signature of any evaluated rule
    (in particular when it is shorter), the scanned range is empty and the
    result is the unchanged buffer with no record. *)
Theorem apply_total_and_short_buffer
    (self : MEDC17EmissionHandler) (data : list byte) :
  (∃ data' changes, apply_modifications self data = (data', changes)) ∧
  (Forall (λ e : string * Pattern,
             enabled (options self) e.1 = true →
             length data ≤ length (signature e.2)) (patterns self) →
   apply_modifications self data = (data, [])).
Proof.
  split.
  - destruct (apply_modifications self data) as [data' changes]. eauto.
  - intros Hshort. apply run_no_match. intros n p Hin He.
    rewrite Forall_forall in Hshort. specialize (Hshort _ Hin He).
    simpl in Hshort. apply first_match_None. intros j Hj. lia.
Qed.

Lemma apply_total_and_short_buffer_witness :
  (∃ data' changes,
     apply_modifications (handler default_options) [x44; x50; x46] =
       (data', changes)) ∧
  apply_modifications (handler default_options) [x44; x50; x46] =
    ([x44; x50; x46], []).
Proof.
  split.
  - apply (apply_total_and_short_buffer (handler default_options)).
  - apply (apply_total_and_short_buffer (handler default_options)).
    repeat constructor; simpl; lia.
Defined.

(** ** Disabled rules *)

Lemma visit_disabled opts st n p :
  enabled opts n = false → visit opts st (n, p) = st.
Proof.
  intros He. destruct st as [data changes]. rewrite visit_spec.
  by rewrite He.
Qed.

Lemma run_skip_disabled opts name rs st :
  enabled opts name = false →
  foldl (visit opts) st rs =
    foldl (visit opts) st (filter (λ e : string * Pattern, e.1 ≠ name) rs).
Proof.
  intros He. revert st. induction rs as [|[n p] rs IH]; intros st; [done|].
  rewrite filter_cons. cbn [foldl]. case_decide as Hn; simpl in Hn.
  - cbn [foldl]. apply IH.
  - subst n. rewrite visit_disabled by done. apply IH.
Qed.

(** C6.  A rule whose lower-cased name is mapped to false, or is not a key
    of the enabled mapping, is skipped by the outer loop before any scan:
    its iteration returns the state as it is, the run equals the run over
    the rules without it (so no byte is written on its behalf, whatever
    the buffer contains), and no record carries its name. *)
Theorem disabled_rule_is_skipped
    (self : MEDC17EmissionHandler) (data : list byte) (name : string) :
  options self !! lower name = None ∨
    options self !! lower name = Some false →
  (∀ st p, visit (options self) st (name, p) = st) ∧
  apply_modifications self data =
    apply_modifications
      {| options := options self;
         patterns :=
           filter (λ e : string * Pattern, e.1 ≠ name) (patterns self) |}
      data ∧
  name ∉ (apply_modifications self data).2.*1.
Proof.
  intros Hoff.
  assert (enabled (options self) name = false) as He
    by (unfold enabled; by destruct Hoff as [-> | ->]).
  split_and!.
  - intros st p. by apply visit_disabled.
  - unfold apply_modifications. simpl. by apply run_skip_disabled.
  - intros Hin. apply list_elem_of_fmap in Hin as ([n o] & -> & Hin).
    apply run_changes_enabled in Hin. simpl in *. congruence.
Qed.

Lemma disabled_rule_is_skipped_witness :
  let buf := [x44; x50; x46; x5f; x01; x01; x01; x00; x00] ++ pad in
  (∀ st p, visit (only "egr") st ("DPF"%string, p) = st) ∧
  apply_modifications (handler (only "egr")) buf =
    apply_modifications
      {| options := only "egr";
         patterns :=
           filter (λ e : string * Pattern, e.1 ≠ "DPF"%string) catalog |}
      buf ∧
  "DPF"%string ∉ (apply_modifications (handler (only "egr")) buf).2.*1.
Proof.
  intros buf.
  apply (disabled_rule_is_skipped (handler (only "egr")) buf "DPF").
  left. vm_compute. reflexivity.
Defined.

(** ** The key under which a rule is looked up *)

(** C3, as stated, fails: the names ["DPF"] and ["dpf"] agree up to case,
    yet only the key ["dpf"] makes the engine evaluate the DPF rule. *)
Lemma enabled_key_case_counterexample :
  let buf := [x44; x50; x46; x5f; x01; x01; x01; x00; x00] ++ pad in
  lower "DPF" = lower "dpf" ∧
  apply_modifications (handler (only "dpf")) buf =
    ([x44; x50; x46; x5f; x00; x00; x00; xff; xff] ++ pad,
     [("DPF"%string, "0x0"%string)]) ∧
  apply_modifications (handler (only "DPF")) buf = (buf, []).
Proof. intros buf. split_and!; vm_compute; reflexivity. Qed.

(** C3, amended.  The rule name is lower-cased and the result is looked up
    as it is among the keys of the enabled mapping.  For every rule and
    every enabled mapping: when the value stored under the lower-cased
    rule name is true the rule is evaluated, that is, it patches at its
    first match and records it, or leaves the state alone when it has no
    match; when that value is false or the key is absent the rule is
    skipped; and a key other than the lower-cased rule name (such as
    ['DPF'] for the DPF rule) has no effect on the rule, whatever it is
    set to.  So the iteration depends on the mapping only through the
    value under the lower-cased name. *)
Theorem enabled_lookup_uses_lowercased_name
    (opts : gmap string bool) (data : list byte)
    (changes : list ChangeRecord) (n : string) (p : Pattern) :
  (opts !! lower n = Some true →
   (∀ i, first_match p data = Some i →
         visit opts (data, changes) (n, p) =
           (patch p i data, changes ++ [(n, hex i)])) ∧
   (first_match p data = None →
    visit opts (data, changes) (n, p) = (data, changes))) ∧
  (opts !! lower n = Some false ∨ opts !! lower n = None →
   visit opts (data, changes) (n, p) = (data, changes)) ∧
  (∀ k b, k ≠ lower n →
     visit (<[k := b]> opts) (data, changes) (n, p) =
     visit opts (data, changes) (n, p)) ∧
  (∀ opts', opts' !! lower n = opts !! lower n →
     visit opts' (data, changes) (n, p) =
     visit opts (data, changes) (n, p)).
Proof.
  split_and!.
  - intros Hon. rewrite visit_spec. unfold enabled. rewrite Hon. simpl.
    split; [intros i ->|intros ->]; done.
  - intros Hoff. rewrite visit_spec. unfold enabled.
    by destruct Hoff as [-> | ->].
  - intros k b Hk. rewrite !visit_spec. unfold enabled.
    by rewrite lookup_insert_ne.
  - intros opts' Heq. rewrite !visit_spec. unfold enabled. by rewrite Heq.
Qed.

Lemma enabled_lookup_uses_lowercased_name_witness :
  let buf := [x44; x50; x46; x5f; x01; x01; x01; x00; x00] ++ pad in
  let p := {| signature := [x44; x50; x46; x5f];
              stock := [x01; x01; x01; x00; x00];
              off := [x00; x00; x00; xff; xff] |} in
  visit (only "dpf") (buf, []) ("DPF"%string, p) =
    (patch p 0 buf, [] ++ [("DPF"%string, hex 0)]) ∧
  visit (only "DPF") (buf, []) ("DPF"%string, p) = (buf, []) ∧
  visit (<["DPF"%string := false]> (only "dpf")) (buf, [])
    ("DPF"%string, p) =
  visit (only "dpf") (buf, []) ("DPF"%string, p).
Proof.
  intros buf p. split_and!.
  - refine (proj1 (proj1 (enabled_lookup_uses_lowercased_name
                            (only "dpf") buf [] "DPF" p) _) 0 _);
      vm_compute; reflexivity.
  - refine (proj1 (proj2 (enabled_lookup_uses_lowercased_name
                            (only "DPF") buf [] "DPF" p)) _).
    right. vm_compute. reflexivity.
  - refine (proj1 (proj2 (proj2 (enabled_lookup_uses_lowercased_name
                                   (only "dpf") buf [] "DPF" p)))
              "DPF"%string false _).
    vm_compute. intros [=].
Defined.

(** ** Where the scan stops *)

(** A bounded universal statement over offsets, decided by evaluation. *)
Lemma below_by_evaluation (P : nat → Prop) `{!∀ j, Decision (P j)} (i : nat) :
  bool_decide (Forall P (seq 0 i)) = true → ∀ j, j < i → P j.
Proof.
  intros Hall j Hj. apply bool_decide_eq_true in Hall.
  rewrite Forall_forall in Hall. apply Hall, elem_of_seq. lia.
Qed.

(** C1, as stated, fails: the signature of DPF first occurs at offset 0,
    the bytes after it are not the stock bytes, and still the rule patches
    the buffer and reports a change, at the later occurrence at offset 9. *)
Lemma first_occurrence_commitment_counterexample :
  let p := {| signature := [x44; x50; x46; x5f];
              stock := [x01; x01; x01; x00; x00];
              off := [x00; x00; x00; xff; xff] |} in
  let buf := [x44; x50; x46; x5f; x02; x01; x01; x00; x00] ++
             [x44; x50; x46; x5f; x01; x01; x01; x00; x00] ++ pad in
  ("DPF"%string, p) ∈ catalog ∧
  occurs (signature p) 0 buf ∧
  ¬ occurs (stock p) (0 + length (signature p)) buf ∧
  apply_modifications (handler (only "dpf")) buf =
    ([x44; x50; x46; x5f; x02; x01; x01; x00; x00] ++
     [x44; x50; x46; x5f; x00; x00; x00; xff; xff] ++ pad,
     [("DPF"%string, "0x9"%string)]).
Proof.
  intros p buf. split_and!.
  - left.
  - vm_compute. reflexivity.
  - unfold occurs. vm_compute. intros [=].
  - vm_compute. reflexivity.
Qed.

(** C1, amended.  For an evaluated rule the scan stops at the first offset
    of the scanned range at which the signature occurs and is followed by
    the stock bytes: the rule patches there and records that offset.
    Occurrences of the signature that are not followed by the stock bytes
    (or whose stock bytes would run past the end of the buffer) are passed
    over and the scan goes on.  The rule leaves buffer and records alone
    when no offset of the scanned range carries signature and stock. *)
Theorem scan_stops_at_first_full_match
    (opts : gmap string bool) (n : string) (p : Pattern)
    (data : list byte) (changes : list ChangeRecord) :
  enabled opts n = true →
  ((∀ i, i < length data - length (signature p) → ¬ matches p data i) →
   visit opts (data, changes) (n, p) = (data, changes)) ∧
  (∀ i, i < length data - length (signature p) → matches p data i →
     (∀ j, j < i → ¬ matches p data j) →
     visit opts (data, changes) (n, p) =
       (patch p i data, changes ++ [(n, hex i)])).
Proof.
  intros He. rewrite visit_spec, He. split.
  - intros Hnone. apply first_match_None in Hnone. by rewrite Hnone.
  - intros i Hi Hm Hfirst.
    assert (first_match p data = Some i) as ->
      by by apply first_match_Some.
    done.
Qed.

Lemma scan_stops_at_first_full_match_witness :
  let p := {| signature := [x44; x50; x46; x5f];
              stock := [x01; x01; x01; x00; x00];
              off := [x00; x00; x00; xff; xff] |} in
  let buf := [x44; x50; x46; x5f; x02; x01; x01; x00; x00] ++
             [x44; x50; x46; x5f; x01; x01; x01; x00; x00] ++ pad in
  visit (only "dpf") (buf, []) ("DPF"%string, p) =
    (patch p 9 buf, [("DPF"%string, hex 9)]).
Proof.
  intros p buf.
  refine (proj2 (scan_stops_at_first_full_match
                   (only "dpf") "DPF" p buf [] _) 9 _ _ _).
  - vm_compute. reflexivity.
  - simpl. lia.
  - split; vm_compute; reflexivity.
  - apply (below_by_evaluation (λ j, ¬ matches p buf j)).
    vm_compute. reflexivity.
Defined.

(** ** Applying twice *)

(** C2, as stated, fails: with two stock occurrences of one rule the first
    run patches the first, and the second run, on the buffer the first one
    produced, patches the other and reports it. *)
Lemma second_run_counterexample :
  let buf := [x44; x50; x46; x5f; x01; x01; x01; x00; x00] ++
             [x44; x50; x46; x5f; x01; x01; x01; x00; x00] ++ pad in
  let first := apply_modifications (handler (only "dpf")) buf in
  first =
    ([x44; x50; x46; x5f; x00; x00; x00; xff; xff] ++
     [x44; x50; x46; x5f; x01; x01; x01; x00; x00] ++ pad,
     [("DPF"%string, "0x0"%string)]) ∧
  apply_modifications (handler (only "dpf")) first.1 =
    ([x44; x50; x46; x5f; x00; x00; x00; xff; xff] ++
     [x44; x50; x46; x5f; x00; x00; x00; xff; xff] ++ pad,
     [("DPF"%string, "0x9"%string)]) ∧
  (apply_modifications (handler (only "dpf")) first.1).2 ≠ [] ∧
  (apply_modifications (handler (only "dpf")) first.1).1 ≠ first.1.
Proof.
  intros buf first. split_and!.
  - vm_compute. reflexivity.
  - vm_compute. reflexivity.
  - vm_compute. intros [=].
  - vm_compute. intros [=].
Qed.

(** C2, amended.  When every evaluated rule of the catalog has at most one
    offset in the buffer at which its signature is followed by its stock
    bytes, a second run with the same enabled mapping on the buffer
    produced by the first run returns no record and leaves that buffer
    unchanged. *)
Theorem second_run_changes_nothing
    (opts : gmap string bool) (data : list byte) :
  Forall (λ e : string * Pattern,
            enabled opts e.1 = true → length (match_offsets e.2 data) ≤ 1)
    catalog →
  apply_modifications (handler opts)
      (apply_modifications (handler opts) data).1 =
    ((apply_modifications (handler opts) data).1, []).
Proof.
  intros Huniq. rewrite Forall_forall in Huniq.
  unfold apply_modifications at 1. cbn [handler options patterns].
  apply run_no_match. intros n p Hin He.
  apply first_match_None. intros j _.
  apply (run_exhausts catalog catalog_well_separated opts catalog)
    with (n := n); [done| |done..].
  intros n' p' Hin' He'. by apply (Huniq (n', p')).
Qed.

Lemma second_run_changes_nothing_witness :
  let buf := [x44; x50; x46; x5f; x01; x01; x01; x00; x00] ++
             [x45; x47; x52; x56; x01; x01; x01; x00] ++ pad in
  apply_modifications (handler default_options)
      (apply_modifications (handler default_options) buf).1 =
    ((apply_modifications (handler default_options) buf).1, []).
Proof.
  intros buf. apply second_run_changes_nothing.
  repeat constructor; intros _; vm_compute; lia.
Defined.

Example second_run_witness_first_run :
  apply_modifications (handler default_options)
    ([x44; x50; x46; x5f; x01; x01; x01; x00; x00] ++
     [x45; x47; x52; x56; x01; x01; x01; x00] ++ pad)
  = ([x44; x50; x46; x5f; x00; x00; x00; xff; xff] ++
     [x45; x47; x52; x56; x00; x00; x00; xff] ++ pad,
     [("DPF"%string, "0x0"%string); ("EGR"%string, "0x9"%string)]).
Proof. vm_compute. reflexivity. Qed.

(** ** What a matching rule does *)

Lemma NoDup_fst_unique {A B} (l : list (A * B)) x y1 y2 :
  NoDup l.*1 → (x, y1) ∈ l → (x, y2) ∈ l → y1 = y2.
Proof.
  induction l as [|[a b] l IH]; simpl; intros Hnd H1 H2.
  { by apply not_elem_of_nil in H1. }
  apply NoDup_cons in Hnd as [Hfresh Hnd].
  apply elem_of_cons in H1 as [E1|H1];
    apply elem_of_cons in H2 as [E2|H2]; simplify_eq; auto.
  - destruct Hfresh. apply list_elem_of_fmap. by exists (a, y2).
  - destruct Hfresh. apply list_elem_of_fmap. by exists (a, y1).
Qed.

(** A rule is patched once per run: when DPF matches at offsets 0 and 9,
    the scan stops at offset 0, and after the run the bytes after the
    occurrence at 9 are still the stock bytes and no record has offset
    9. *)
Example later_match_is_left_alone :
  let p := {| signature := [x44; x50; x46; x5f];
              stock := [x01; x01; x01; x00; x00];
              off := [x00; x00; x00; xff; xff] |} in
  let buf := [x44; x50; x46; x5f; x01; x01; x01; x00; x00] ++
             [x44; x50; x46; x5f; x01; x01; x01; x00; x00] ++ pad in
  let st := apply_modifications (handler (only "dpf")) buf in
  ("DPF"%string, p) ∈ catalog ∧ enabled (only "dpf") "DPF" = true ∧
  matches p buf 9 ∧
  slice (9 + length (signature p))
        (9 + length (signature p) + length (off p)) st.1 ≠ off p ∧
  ("DPF"%string, hex 9) ∉ st.2.
Proof.
  intros p buf st. split_and!.
  - left.
  - vm_compute. reflexivity.
  - split; vm_compute; reflexivity.
  - vm_compute. intros [=].
  - vm_compute. intros Hin.
    apply list_elem_of_singleton in Hin. discriminate Hin.
Qed.

(** C4.  For every evaluated rule of the catalog that matches, [i] being
    the offset at which it matches (the first offset at which its
    signature occurs followed by its stock bytes; a rule is patched once
    per run): after the run the [length (off p)] bytes that follow the
    signature at [i] are the off bytes, the signature at [i] is intact,
    the record of the rule with offset [i] is in the result and it is the
    only record that carries the name of the rule, and every byte outside
    the patched ranges of the recorded changes is as it was before. *)
Theorem first_match_is_patched
    (opts : gmap string bool) (data : list byte)
    (n : string) (p : Pattern) (i : nat) :
  (n, p) ∈ catalog → enabled opts n = true →
  matches p data i → (∀ j, j < i → ¬ matches p data j) →
  let st := apply_modifications (handler opts) data in
  slice (i + length (signature p))
        (i + length (signature p) + length (off p)) st.1 = off p ∧
  slice i (i + length (signature p)) st.1 = signature p ∧
  (n, hex i) ∈ st.2 ∧
  (∀ o, (n, o) ∈ st.2 → o = hex i) ∧
  (∀ q, (∀ n' p' j, (n', p') ∈ catalog → (n', hex j) ∈ st.2 →
               ¬ in_region p' j q) →
        st.1 !! q = data !! q).
Proof.
  intros Hin He Hm Hfirst st.
  pose proof Hin as Hsplit.
  apply list_elem_of_split in Hsplit as (pre & post & Hps).
  assert (n ∉ pre.*1) as Hfresh.
  { pose proof catalog_names_NoDup as Hnd. rewrite Hps in Hnd.
    rewrite fmap_app, fmap_cons in Hnd. simpl in Hnd.
    apply NoDup_app in Hnd as (_ & Hnd & _). intros Hpre.
    apply (Hnd n Hpre). left. }
  destruct (run_patches_first_match catalog catalog_well_separated opts
              pre post n p data i Hps Hfresh He Hm Hfirst) as [Ho Hrec].
  fold (apply_modifications (handler opts) data) in Ho, Hrec. fold st in Ho, Hrec.
  apply occurs_app in Ho as [Hsig Hoff].
  split_and!; [done..| |].
  - intros o Ho. eapply NoDup_fst_unique; [|apply Ho|apply Hrec].
    apply catalog_changes_NoDup.
  - apply (run_frame opts catalog data catalog_same_length).
Qed.

Lemma first_match_is_patched_witness :
  let p := {| signature := [x44; x50; x46; x5f];
              stock := [x01; x01; x01; x00; x00];
              off := [x00; x00; x00; xff; xff] |} in
  let buf := [x45; x47; x52; x56; x01; x01; x01; x00] ++
             [x44; x50; x46; x5f; x01; x01; x01; x00; x00] ++ pad in
  let st := apply_modifications (handler default_options) buf in
  slice (8 + length (signature p))
        (8 + length (signature p) + length (off p)) st.1 = off p ∧
  slice 8 (8 + length (signature p)) st.1 = signature p ∧
  ("DPF"%string, hex 8) ∈ st.2 ∧
  (∀ o, ("DPF"%string, o) ∈ st.2 → o = hex 8) ∧
  (∀ q, (∀ n' p' j, (n', p') ∈ catalog → (n', hex j) ∈ st.2 →
               ¬ in_region p' j q) →
        st.1 !! q = buf !! q).
Proof.
  intros p buf.
  apply (first_match_is_patched default_options buf "DPF" p 8).
  - left.
  - vm_compute. reflexivity.
  - split; vm_compute; reflexivity.
  - apply (below_by_evaluation (λ j, ¬ matches p buf j)).
    vm_compute. reflexivity.
Defined.

(** ** The default options and the StartStop rule *)

(** C10.  With the default options of [__init__] (keys ['dpf'], ['egr'],
    ['scr'] and ['start_stop'], all true) the StartStop rule is looked up
    under ['startstop'], which is not a key: its iteration returns the
    state as it is, no record is named StartStop, and wherever the
    StartStop signature occurs in the buffer the bytes that follow it (as
    many as the rule has stock bytes) are the same after the run. *)
Theorem default_options_skip_startstop (data : list byte) :
  options (init None) = default_options ∧
  options (init None) !! lower "StartStop" = None ∧
  (∀ st p, visit (options (init None)) st ("StartStop"%string, p) = st) ∧
  ("StartStop"%string ∉ (apply_modifications (init None) data).2.*1) ∧
  (∀ p i,
     ("StartStop"%string, p) ∈ patterns (init None) →
     occurs (signature p) i data →
     slice (i + length (signature p))
           (i + length (signature p) + length (stock p))
           (apply_modifications (init None) data).1 =
     slice (i + length (signature p))
           (i + length (signature p) + length (stock p)) data).
Proof.
  assert (enabled default_options "StartStop" = false) as Hoff
    by (vm_compute; reflexivity).
  split_and!.
  - done.
  - vm_compute. reflexivity.
  - intros st p. by apply visit_disabled.
  - intros Hin. apply list_elem_of_fmap in Hin as ([n o] & Hn & Hin).
    apply run_changes_enabled in Hin. simpl in *. subst n.
    cbn [init options init_options] in Hin. congruence.
  - intros p i Hp Ho. cbn [init patterns] in Hp.
    unfold apply_modifications. cbn [init options patterns init_options].
    apply (run_inv (λ d _,
      occurs (signature p) i d ∧
      slice (i + length (signature p))
            (i + length (signature p) + length (stock p)) d =
      slice (i + length (signature p))
            (i + length (signature p) + length (stock p)) data));
      [|done].
    intros d c n' p' i' Hin' He' Hf [Hsig Hkeep].
    apply first_match_Some in Hf as (_ & Hm & _).
    assert (length (off p') = length (stock p') ∧
            spares_signature p' p = true) as [Hlen Hsp].
    { catalog_cases Hp; catalog_cases Hin';
        solve [ split; vm_compute; reflexivity
              | rewrite Hoff in He'; discriminate He' ]. }
    pose proof Hm as Hw. rewrite matches_occurs in Hw. fold (window p') in Hw.
    destruct (separated_sound _ _ _ _ _ _ _ _ _ _ Hsp Hw Hsig)
      as [Hd|[Hd|[? _]]]; [| |done].
    + split.
      * apply (occurs_patch_disjoint p' d i'); [done|done|lia|done].
      * rewrite slice_patch_disjoint by (done || lia). done.
    + split.
      * apply (occurs_patch_disjoint p' d i'); [done|done|lia|done].
      * rewrite slice_patch_disjoint by (done || lia). done.
Qed.

Lemma default_options_skip_startstop_witness :
  let p := {| signature := [x53; x54; x41; x52; x54];
              stock := [x01; x01; x00];
              off := [x00; x00; xff] |} in
  let buf := [x44; x50; x46; x5f; x01; x01; x01; x00; x00] ++
             [x53; x54; x41; x52; x54; x01; x01; x00] ++ pad in
  slice (9 + length (signature p))
        (9 + length (signature p) + length (stock p))
        (apply_modifications (init None) buf).1 =
  slice (9 + length (signature p))
        (9 + length (signature p) + length (stock p)) buf.
Proof.
  intros p buf.
  refine (proj2 (proj2 (proj2 (proj2
            (default_options_skip_startstop buf)))) p 9 _ _).
  - cbn [init patterns]. unfold catalog. do 3 right. left.
  - vm_compute. reflexivity.
Defined.

(** An empty mapping passed to [__init__] is falsy and is replaced by the
    defaults as well. *)
Example init_empty_options_defaulted :
  options (init (Some ∅)) = default_options ∧
  options (init (Some (only "egr"))) = only "egr".
Proof. split; vm_compute; reflexivity. Qed.

Example default_options_startstop_scenario :
  apply_modifications (init None)
    ([x44; x50; x46; x5f; x01; x01; x01; x00; x00] ++
     [x53; x54; x41; x52; x54; x01; x01; x00] ++ pad)
  = ([x44; x50; x46; x5f; x00; x00; x00; xff; xff] ++
     [x53; x54; x41; x52; x54; x01; x01; x00] ++ pad,
     [("DPF"%string, "0x0"%string)]).
Proof. vm_compute. reflexivity. Qed.


(** * Further properties of the engine *)

(** ** The rules of the catalog do not see one another *)

Lemma hex_inj i j : hex i = hex j → i = j.
Proof.
  intros Heq. apply (f_equal HexString.to_nat) in Heq.
  unfold hex in Heq. by rewrite !HexString.to_nat_of_nat in Heq.
Qed.

Lemma original_changes opts data0 rs cur c :
  (foldl (visit_original opts data0) (cur, c) rs).2 =
  c ++ omap (λ e : string * Pattern,
               if enabled opts e.1
               then (λ i, (e.1, hex i)) <$> first_match e.2 data0
               else None) rs.
Proof.
  revert cur c. induction rs as [|[n p] rs IH]; intros cur c; cbn [foldl].
  { simpl. by rewrite app_nil_r. }
  unfold visit_original at 2. simpl.
  destruct (enabled opts n); [|apply IH].
  destruct (first_match p data0) as [i|]; simpl; [|apply IH].
  rewrite IH. by rewrite <- app_assoc.
Qed.

Lemma catalog_run_original opts data :
  apply_modifications (handler opts) data =
  foldl (visit_original opts data) (data, []) catalog.
Proof.
  unfold apply_modifications. cbn [handler options patterns].
  apply (run_independent catalog catalog_well_separated);
    [done|apply catalog_names_NoDup|done|done].
Qed.

Lemma catalog_record_iff opts data n p i :
  (n, p) ∈ catalog →
  (n, hex i) ∈ (apply_modifications (handler opts) data).2 ↔
  enabled opts n = true ∧ first_match p data = Some i.
Proof.
  intros Hin. rewrite catalog_run_original, original_changes, app_nil_l.
  rewrite list_elem_of_omap. split.
  - intros ([n' p'] & Hin' & Hf). simpl in Hf.
    destruct (enabled opts n') eqn:He; [|done].
    destruct (first_match p' data) as [i'|] eqn:Hfm; [|done].
    simpl in Hf. injection Hf as -> Hi. apply hex_inj in Hi as ->.
    assert (p' = p) as ->
      by (eapply NoDup_fst_unique; [apply catalog_names_NoDup|done..]).
    done.
  - intros [He Hf]. exists (n, p). split; [done|]. simpl.
    by rewrite He, Hf.
Qed.

Lemma catalog_first_match_patched opts data n p i :
  (n, p) ∈ catalog → enabled opts n = true → first_match p data = Some i →
  occurs (patched_window p) i (apply_modifications (handler opts) data).1.
Proof.
  intros Hin He Hf. apply first_match_Some in Hf as (_ & Hm & Hfirst).
  pose proof Hin as Hsplit.
  apply list_elem_of_split in Hsplit as (pre & post & Hps).
  assert (n ∉ pre.*1) as Hfresh.
  { pose proof catalog_names_NoDup as Hnd. rewrite Hps in Hnd.
    rewrite fmap_app, fmap_cons in Hnd. simpl in Hnd.
    apply NoDup_app in Hnd as (_ & Hnd & _). intros Hpre.
    apply (Hnd n Hpre). left. }
  by destruct (run_patches_first_match catalog catalog_well_separated opts
                 pre post n p data i Hps Hfresh He Hm Hfirst) as [Ho _].
Qed.

(** X1.  The rules of the catalog act independently: the run is the same
    as the one in which every evaluated rule looks for its first match in
    the buffer as it was before the run, patches there and records that
    offset.  No rule hides, moves or creates the match of another. *)
Theorem rules_act_independently (opts : gmap string bool) (data : list byte) :
  apply_modifications (handler opts) data =
  foldl (visit_original opts data) (data, []) catalog.
Proof. apply catalog_run_original. Qed.

(** X2.  A record with the name of a catalog rule and offset [i] is in the
    result exactly when the rule is evaluated and [i] is the first offset
    of the scanned range at which, in the buffer before the run, its
    signature is followed by its stock bytes; the patched range then lies
    inside the buffer. *)
Theorem record_iff_first_match_of_input
    (opts : gmap string bool) (data : list byte)
    (n : string) (p : Pattern) (i : nat) :
  (n, p) ∈ catalog →
  ((n, hex i) ∈ (apply_modifications (handler opts) data).2 ↔
   enabled opts n = true ∧ first_match p data = Some i) ∧
  ((n, hex i) ∈ (apply_modifications (handler opts) data).2 →
   i + length (signature p) + length (off p) ≤ length data).
Proof.
  intros Hin. split; [by apply catalog_record_iff|].
  intros Hrec. apply (catalog_record_iff _ _ _ p) in Hrec as [_ Hf]; [|done].
  apply first_match_Some in Hf as (_ & [_ Hk] & _).
  destruct (ws_entry _ catalog_well_separated _ _ Hin) as (Hl & Hne & _).
  apply occurs_bound in Hk; [|done]. lia.
Qed.

Lemma record_iff_first_match_of_input_witness :
  let p := {| signature := [x45; x47; x52; x56];
              stock := [x01; x01; x01; x00];
              off := [x00; x00; x00; xff] |} in
  let buf := [x44; x50; x46; x5f; x01; x01; x01; x00; x00] ++
             [x45; x47; x52; x56; x01; x01; x01; x00] ++ pad in
  (("EGR"%string, hex 9) ∈
     (apply_modifications (handler default_options) buf).2 ↔
   enabled default_options "EGR" = true ∧ first_match p buf = Some 9) ∧
  (("EGR"%string, hex 9) ∈
     (apply_modifications (handler default_options) buf).2 →
   9 + length (signature p) + length (off p) ≤ length buf).
Proof.
  intros p buf.
  apply (record_iff_first_match_of_input default_options buf "EGR" p 9).
  right. left.
Defined.

(** X3.  A catalog rule whose signature occurs nowhere in the buffer gets
    no record, whatever the other rules patch. *)
Theorem absent_signature_no_record
    (opts : gmap string bool) (data : list byte) (n : string) (p : Pattern) :
  (n, p) ∈ catalog →
  (∀ i, ¬ occurs (signature p) i data) →
  n ∉ (apply_modifications (handler opts) data).2.*1.
Proof.
  intros Hin Habs Hrec.
  apply list_elem_of_fmap in Hrec as ([n' o] & Hn & Hrec). simpl in Hn.
  subst n'. rewrite catalog_run_original, original_changes, app_nil_l in Hrec.
  apply list_elem_of_omap in Hrec as ([n' p'] & Hin' & Hf).
  simpl in Hf. destruct (enabled opts n'); [|done].
  destruct (first_match p' data) as [i|] eqn:Hfm; [|done].
  simpl in Hf. injection Hf as -> _.
  assert (p' = p) as ->
    by (eapply NoDup_fst_unique; [apply catalog_names_NoDup|done..]).
  apply first_match_Some in Hfm as (_ & [Hs _] & _). by apply (Habs i).
Qed.

Lemma absent_signature_no_record_witness :
  let p := {| signature := [x45; x47; x52; x56];
              stock := [x01; x01; x01; x00];
              off := [x00; x00; x00; xff] |} in
  let buf := [x44; x50; x46; x5f; x01; x01; x01; x00; x00] in
  "EGR"%string ∉ (apply_modifications (handler default_options) buf).2.*1.
Proof.
  intros p buf.
  apply (absent_signature_no_record default_options buf "EGR" p).
  - right. left.
  - intros i Ho.
    assert (i + length (signature p) ≤ length buf) as Hb
      by (by apply occurs_bound).
    assert (i < 6) as Hi by (simpl in Hb; lia).
    revert Ho. apply (below_by_evaluation
                        (λ i, ¬ occurs (signature p) i buf) 6); [|done].
    vm_compute. reflexivity.
Defined.

(** ** What the run reports and what it writes *)

Lemma record_source opts data n o :
  (n, o) ∈ (apply_modifications (handler opts) data).2 →
  ∃ p i, (n, p) ∈ catalog ∧ enabled opts n = true ∧
         first_match p data = Some i ∧ o = hex i.
Proof.
  rewrite catalog_run_original, original_changes, app_nil_l.
  intros Hrec. apply list_elem_of_omap in Hrec as ([n' p'] & Hin' & Hf).
  simpl in Hf. destruct (enabled opts n') eqn:He; [|done].
  destruct (first_match p' data) as [i|] eqn:Hfm; [|done].
  simpl in Hf. injection Hf as -> <-. by exists p', i.
Qed.

Lemma catalog_report_nil_iff opts data :
  (apply_modifications (handler opts) data).2 = [] ↔
  (apply_modifications (handler opts) data).1 = data.
Proof.
  split.
  - intros Hnil.
    assert (apply_modifications (handler opts) data = (data, [])) as ->; [|done].
    unfold apply_modifications. cbn [handler options patterns].
    apply run_no_match. intros n p Hin He.
    destruct (first_match p data) as [i|] eqn:Hf; [|done].
    assert ((n, hex i) ∈ (apply_modifications (handler opts) data).2) as Hrec
      by by apply (catalog_record_iff opts data n p i).
    rewrite Hnil in Hrec. by apply not_elem_of_nil in Hrec.
  - intros Hsame.
    destruct (apply_modifications (handler opts) data).2 as [|[n o] c] eqn:E;
      [done|exfalso].
    assert ((n, o) ∈ (apply_modifications (handler opts) data).2) as Hrec
      by (rewrite E; left).
    apply record_source in Hrec as (p & i & Hin & He & Hf & _).
    pose proof (catalog_first_match_patched opts data n p i Hin He Hf) as Ho.
    rewrite Hsame in Ho.
    apply first_match_Some in Hf as (_ & [_ Hk] & _).
    apply occurs_app in Ho as [_ Ho].
    destruct (ws_entry _ catalog_well_separated _ _ Hin) as (Hl & _ & Hne).
    unfold occurs in Ho, Hk. rewrite Hl in Ho. congruence.
Qed.

(** X4.  The run reports a change exactly when it has changed the
    buffer: the record list is empty if and only if the buffer after the
    run equals the buffer before. *)
Theorem report_empty_iff_unchanged
    (opts : gmap string bool) (data : list byte) :
  (apply_modifications (handler opts) data).2 = [] ↔
  (apply_modifications (handler opts) data).1 = data.
Proof. apply catalog_report_nil_iff. Qed.

Lemma report_empty_iff_unchanged_witness :
  let buf := [x45; x47; x52; x56; x02; x01; x01; x00] ++ pad in
  (apply_modifications (handler default_options) buf).1 = buf.
Proof.
  intros buf.
  apply (proj1 (report_empty_iff_unchanged default_options buf)).
  vm_compute. reflexivity.
Defined.

(** X5.  The run only turns stock bytes into off bytes: every byte of the
    buffer after the run is the byte that was there before, or it was 01
    and is now 00, or it was 00 and is now FF.  No other byte value is
    ever overwritten and no other value is ever written. *)
Theorem only_stock_bytes_change
    (opts : gmap string bool) (data : list byte) (q : nat) :
  (apply_modifications (handler opts) data).1 !! q = data !! q ∨
  (data !! q = Some x01 ∧
   (apply_modifications (handler opts) data).1 !! q = Some x00) ∨
  (data !! q = Some x00 ∧
   (apply_modifications (handler opts) data).1 !! q = Some xff).
Proof.
  unfold apply_modifications. cbn [handler options patterns].
  destruct (run_changed_bytes catalog catalog_well_separated opts catalog
              data (reflexivity _) q)
    as [Heq|(n & p & j & Hin & Hq & Ho & Hd)]; [by left|right].
  set (d' := (foldl (visit opts) (data, []) catalog).1) in *.
  unfold in_region in Hq.
  assert (d' !! q = off p !! (q - (j + length (signature p)))) as Hq'.
  { rewrite occurs_lookup in Ho. unfold patched_window in Ho.
    specialize (Ho (q - j)). rewrite length_app in Ho.
    replace (j + (q - j)) with q in Ho by lia. rewrite Ho by lia.
    rewrite lookup_app_r by lia. f_equal. lia. }
  rewrite Hq', Hd.
  set (k := q - (j + length (signature p))).
  assert (k < length (off p)) as Hk by (unfold k; lia).
  clearbody k. clear -Hin Hk.
  catalog_cases Hin; simpl in Hk;
    do 5 (destruct k as [|k]; [first [lia | simpl; auto]|]); lia.
Qed.


(** * The file layer *)

(** ** The engine with its log *)

Lemma scan_loop_log_erase name p range st :
  (scan_loop_log name p range st).2 = scan_loop name p range st.
Proof.
  induction range as [|i range IH]; [done|]. destruct st as [data changes].
  cbn [scan_loop_log scan_loop].
  repeat case_bool_decide; done.
Qed.

Lemma visit_log_erase opts acc item :
  (visit_log opts acc item).2 = visit opts acc.2 item.
Proof.
  destruct item as [n p]. unfold visit_log, visit.
  destruct (negb _); [done|]. apply scan_loop_log_erase.
Qed.

(** Dropping the log of [apply_modifications_log] gives
    [apply_modifications]. *)
Lemma apply_log_erase self data :
  (apply_modifications_log self data).2 = apply_modifications self data.
Proof.
  unfold apply_modifications_log, apply_modifications.
  change (data, []) with (([] : list Event, (data, [] : list ChangeRecord)).2)
    at 2.
  generalize ([] : list Event, (data, [] : list ChangeRecord)).
  induction (patterns self) as [|e l IH]; intros acc; [done|].
  cbn [foldl]. rewrite IH. by rewrite visit_log_erase.
Qed.

Lemma scan_loop_log_only_logs name p range st ev :
  ev ∈ (scan_loop_log name p range st).1 → ∃ msg, ev = Log INFO msg.
Proof.
  induction range as [|i range IH]; [by intros ?%not_elem_of_nil|].
  destruct st as [data changes]. cbn [scan_loop_log].
  repeat case_bool_decide; try done.
  intros ->%list_elem_of_singleton. eauto.
Qed.

Lemma apply_log_only_logs self data ev :
  ev ∈ (apply_modifications_log self data).1 → ∃ msg, ev = Log INFO msg.
Proof.
  unfold apply_modifications_log.
  assert (∀ ev, ev ∈ ([] : list Event, (data, [] : list ChangeRecord)).1 →
                ∃ msg, ev = Log INFO msg) as Hacc
    by (intros ? ?%not_elem_of_nil; done).
  revert Hacc. generalize ([] : list Event, (data, [] : list ChangeRecord)).
  induction (patterns self) as [|[n p] l IH]; intros acc Hacc; [by auto|].
  cbn [foldl]. apply IH. intros ev'. unfold visit_log.
  destruct (negb _); simpl; intros [Hin|Hin]%elem_of_app; auto.
  - apply list_elem_of_singleton in Hin as ->. eauto.
  - by eapply scan_loop_log_only_logs.
Qed.

(** ** The runs of [process], case by case *)

Lemma process_unfold os self :
  process os self =
    let f := input_file self in
    let o := output_file self in
    if negb (os_path_exists os f) then
      [PathExists f;
       Log ERROR ("Input file " +:+ f +:+ " does not exist.");
       Log ERROR ("Processing failed: " +:+ "File " +:+ f +:+ " not found.");
       Print ("Error during processing: " +:+ "File " +:+ f +:+ " not found.")]
    else if negb (os_access_R_OK os f) then
      [PathExists f; Access f;
       Log ERROR ("Input file " +:+ f +:+ " is not readable.");
       Log ERROR ("Processing failed: " +:+ "File " +:+ f +:+ " is not readable.");
       Print ("Error during processing: " +:+ "File " +:+ f +:+ " is not readable.")]
    else
      [PathExists f; Access f;
       Log INFO ("Validated input file " +:+ f +:+ "."); OpenRead f] ++
      match os_open_rb os f with
      | Some e =>
          [Log ERROR ("Error reading file " +:+ f +:+ ": " +:+ str e);
           Log ERROR ("Processing failed: " +:+ str e);
           Print ("Error during processing: " +:+ str e)]
      | None =>
          [Log INFO ("Reading binary file " +:+ f +:+ "."); ReadAll f] ++
          match os_read os f with
          | inl e =>
              [Log ERROR ("Error reading file " +:+ f +:+ ": " +:+ str e);
               Log ERROR ("Processing failed: " +:+ str e);
               Print ("Error during processing: " +:+ str e)]
          | inr data =>
              (apply_modifications_log (engine self) data).1 ++
              match (apply_modifications (engine self) data).2 with
              | [] =>
                  [Log WARNING
                     "No modifications applied. Patterns may not match the input file.";
                   Print
                     "No modifications applied. Patterns may not match the input file."]
              | _ :: _ =>
                  [Print (nl +:+ "Modification Report:");
                   Print (str_mul "-" 40)] ++
                  ((λ c : ChangeRecord,
                      Print (c.1 +:+ " modified at offset " +:+ c.2)) <$>
                     (apply_modifications (engine self) data).2) ++
                  [OpenWrite o] ++
                  match os_open_wb os o with
                  | Some e =>
                      [Log ERROR ("Error writing file " +:+ o +:+ ": " +:+ str e);
                       Log ERROR ("Processing failed: " +:+ str e);
                       Print ("Error during processing: " +:+ str e)]
                  | None =>
                      [WriteAll o (apply_modifications (engine self) data).1] ++
                      match os_write os o
                              (apply_modifications (engine self) data).1 with
                      | Some e =>
                          [CloseWrite o;
                           Log ERROR ("Error writing file " +:+ o +:+ ": "
                                      +:+ str (default e (os_close_wb os o)));
                           Log ERROR ("Processing failed: "
                                      +:+ str (default e (os_close_wb os o)));
                           Print ("Error during processing: "
                                  +:+ str (default e (os_close_wb os o)))]
                      | None =>
                          [Log INFO ("Modified file saved as " +:+ o +:+ ".");
                           CloseWrite o] ++
                          match os_close_wb os o with
                          | Some e =>
                              [Log ERROR ("Error writing file " +:+ o +:+ ": "
                                          +:+ str e);
                               Log ERROR ("Processing failed: " +:+ str e);
                               Print ("Error during processing: " +:+ str e)]
                          | None =>
                              [Print (nl +:+ "Modified file saved as " +:+ o)]
                          end
                      end
                  end
              end
          end
      end.
Proof.
  cbv zeta. unfold process, validate_file, read_binary, write_binary.
  destruct (os_path_exists os (input_file self)); [|done].
  destruct (os_access_R_OK os (input_file self)); [|done].
  destruct (os_open_rb os (input_file self)) as [e|]; [done|].
  destruct (os_read os (input_file self)) as [e|data]; [done|].
  cbn -[apply_modifications_log str_mul String.append].
  rewrite <- (apply_log_erase (engine self) data).
  destruct (apply_modifications_log (engine self) data) as [lg [d' ch]].
  cbn -[str_mul String.append].
  destruct ch as [|c ch]; cbn -[str_mul String.append];
    [by rewrite ?app_nil_r|].
  destruct (os_open_wb os (output_file self)) as [e|];
    cbn -[str_mul String.append].
  { repeat first [progress rewrite <- app_assoc | progress cbn [app]]. done. }
  destruct (os_write os (output_file self) d') as [e|];
    destruct (os_close_wb os (output_file self)) as [e'|];
    cbn -[str_mul String.append];
    repeat first [progress rewrite <- app_assoc | progress cbn [app]]; done.
Qed.

(** ** Error paths of [process] *)

(** X6.  When the input file does not exist, or exists but is not
    readable, [process] opens no file, neither for reading nor for
    writing: it logs the failed check, and the exception raised by
    [validate_file] is caught, logged and printed as
    ["Error during processing: File <name> not found."] or
    ["... is not readable."]. *)
Theorem process_rejects_bad_input (os : OS) (self : FileHandler) :
  (os_path_exists os (input_file self) = false →
   process os self =
     [PathExists (input_file self);
      Log ERROR ("Input file " +:+ input_file self +:+ " does not exist.");
      Log ERROR ("Processing failed: File " +:+ input_file self
                 +:+ " not found.");
      Print ("Error during processing: File " +:+ input_file self
             +:+ " not found.")]) ∧
  (os_path_exists os (input_file self) = true →
   os_access_R_OK os (input_file self) = false →
   process os self =
     [PathExists (input_file self); Access (input_file self);
      Log ERROR ("Input file " +:+ input_file self +:+ " is not readable.");
      Log ERROR ("Processing failed: File " +:+ input_file self
                 +:+ " is not readable.");
      Print ("Error during processing: File " +:+ input_file self
             +:+ " is not readable.")]).
Proof.
  split.
  - intros He. rewrite process_unfold. cbv zeta. by rewrite He.
  - intros He Ha. rewrite process_unfold. cbv zeta. by rewrite He, Ha.
Qed.

Lemma process_rejects_bad_input_witness :
  process os_missing (file_handler default_options "ecu.bin" "out.bin") =
    [PathExists "ecu.bin";
     Log ERROR "Input file ecu.bin does not exist.";
     Log ERROR "Processing failed: File ecu.bin not found.";
     Print "Error during processing: File ecu.bin not found."].
Proof.
  apply (proj1 (process_rejects_bad_input os_missing
                  (file_handler default_options "ecu.bin" "out.bin"))).
  reflexivity.
Defined.

(** ** What [process] writes *)




(** ** What [process] tells the user *)





(** The close of the output file can fail after the write call returned:
    the log then holds the "saved" line and the run ends with the error. *)
Example process_close_failure :
  process
    {| os_path_exists := λ _, true; os_access_R_OK := λ _, true;
       os_open_rb := λ _, None;
       os_read := λ _, inr [x44; x50; x46; x5f; x01; x01; x01; x00; x00; x10];
       os_open_wb := λ _, None; os_write := λ _ _, None;
       os_close_wb := λ _, Some (OSError "No space left on device") |}
    (file_handler (only "dpf") "ecu.bin" "out.bin")
  = [PathExists "ecu.bin"; Access "ecu.bin";
     Log INFO "Validated input file ecu.bin."; OpenRead "ecu.bin";
     Log INFO "Reading binary file ecu.bin."; ReadAll "ecu.bin";
     Log INFO "DPF modified at offset 0x0.";
     Log INFO "Skipping EGR modification (disabled by user).";
     Log INFO "Skipping SCR modification (disabled by user).";
     Log INFO "Skipping StartStop modification (disabled by user).";
     Print (nl +:+ "Modification Report:"); Print (str_mul "-" 40);
     Print "DPF modified at offset 0x0"; OpenWrite "out.bin";
     WriteAll "out.bin" [x44; x50; x46; x5f; x00; x00; x00; xff; xff; x10];
     Log INFO "Modified file saved as out.bin."; CloseWrite "out.bin";
     Log ERROR "Error writing file out.bin: No space left on device";
     Log ERROR "Processing failed: No space left on device";
     Print "Error during processing: No space left on device"].
Proof. vm_compute. reflexivity. Qed.

(** ** The generated output name *)

Lemma rfind_from_spec c i l r :
  rfind_from c i l = r → (0 ≤ r)%Z →
  ∃ k, r = Z.of_nat (i + k) ∧ l !! k = Some c.
Proof.
  revert i r. induction l as [|x l IH]; intros i r; simpl.
  - intros <- ?. lia.
  - destruct (0 <=? rfind_from c (S i) l)%Z eqn:Hr.
    + intros <- _. apply Z.leb_le in Hr.
      destruct (IH (S i) _ eq_refl Hr) as (k & Hk & Hl).
      exists (S k). split; [rewrite Hk; f_equal; lia|done].
    + case_bool_decide as Hx; intros <- ?; [|lia].
      exists 0. split; [f_equal; lia|by subst].
Qed.

Lemma splitext_loop_spec p d range :
  p !! d = Some "."%char →
  let r := splitext_loop p d range in
  p = r.1 ++ r.2 ∧ (r.2 = [] ∨ ∃ t, r.2 = "."%char :: t).
Proof.
  intros Hd. induction range as [|i range IH]; simpl.
  - split; [by rewrite app_nil_r|by left].
  - case_bool_decide; [|apply IH]. simpl. split; [by rewrite take_drop|].
    right. exists (drop (S d) p). by apply drop_S.
Qed.

Lemma string_of_list_ascii_app l k :
  string_of_list_ascii (l ++ k) =
  string_of_list_ascii l +:+ string_of_list_ascii k.
Proof. induction l as [|x l IH]; simpl; [done|by rewrite IH]. Qed.

(** The two parts make up the path, and the extension is empty or starts
    with a dot. *)
Lemma splitext_spec path :
  path = (splitext path).1 +:+ (splitext path).2 ∧
  ((splitext path).2 = ""%string ∨ ∃ t, (splitext path).2 = String "." t).
Proof.
  unfold splitext. cbv zeta.
  set (p := list_ascii_of_string path).
  assert (path = string_of_list_ascii p) as Hp
    by (unfold p; by rewrite string_of_list_ascii_of_string).
  destruct (rfind "/" p <? rfind "." p)%Z eqn:Hlt; simpl.
  - apply Z.ltb_lt in Hlt.
    assert (0 ≤ rfind "." p)%Z as Hdot.
    { assert (-1 ≤ rfind "/" p)%Z; [|lia]. unfold rfind.
      generalize 0. clear. induction p as [|x p IH]; intros i; simpl; [lia|].
      destruct (0 <=? _)%Z eqn:E; [apply Z.leb_le in E; lia|].
      case_bool_decide; lia. }
    destruct (rfind_from_spec "." 0 p _ eq_refl Hdot) as (k & Hk & Hl).
    fold (rfind "."%char p) in Hk. rewrite Hk. simpl. rewrite Nat2Z.id.
    destruct (splitext_loop_spec p k
                (seq (Z.to_nat (rfind "/" p + 1))
                   (k - Z.to_nat (rfind "/" p + 1))) Hl) as [Happ Hext].
    split.
    + rewrite <- string_of_list_ascii_app. by rewrite <- Happ.
    + destruct Hext as [->|[t ->]]; [by left|right]. simpl. eauto.
  - split; [|by left]. rewrite Hp at 1.
    generalize (string_of_list_ascii p). clear.
    intros s. induction s as [|c s IH]; [done|].
    change (String c s = String c (s +:+ "")). by f_equal.
Qed.

Lemma append_inv_head (a b c : string) : a +:+ b = a +:+ c → b = c.
Proof. induction a as [|x a IH]; simpl; [done|]. intros [=]. auto. Qed.

Lemma generated_name_differs path now :
  (splitext path).1 +:+ "_modified_" +:+ now +:+ ".bin" ≠ path.
Proof.
  destruct (splitext_spec path) as [Hp Hext].
  destruct (splitext path) as [root ext]. simpl in Hp, Hext. simpl.
  intros Heq. rewrite Hp in Heq. apply append_inv_head in Heq.
  destruct Hext as [He|[t He]]; rewrite He in Heq; discriminate Heq.
Qed.

Lemma process_write_path os self path :
  OpenWrite path ∈ process os self ∨
    (∃ d, WriteAll path d ∈ process os self) →
  path = output_file self.
Proof.
  intros Hw.
  assert (∃ ev, ev ∈ process os self ∧
                ((∃ d, ev = WriteAll path d) ∨ ev = OpenWrite path))
    as (ev & Hin & Hev) by (destruct Hw as [Hw|[d Hw]]; eauto 6).
  rewrite process_unfold in Hin. cbv zeta in Hin.
  destruct (os_path_exists os (input_file self));
    [|destruct Hev as [[d ->]| ->]; simpl in Hin; trace_cases Hin].
  destruct (os_access_R_OK os (input_file self));
    [|destruct Hev as [[d ->]| ->]; simpl in Hin; trace_cases Hin].
  destruct (os_open_rb os (input_file self)) as [e|];
    [destruct Hev as [[d ->]| ->]; simpl in Hin; trace_cases Hin|].
  destruct (os_read os (input_file self)) as [e|data];
    [destruct Hev as [[d ->]| ->]; simpl in Hin; trace_cases Hin|].
  cbn [negb] in Hin.
  assert (ev ∈ (apply_modifications_log (engine self) data).1 → False)
    as Hlg.
  { intros [msg ->]%apply_log_only_logs. by destruct Hev as [[d [=]]|[=]]. }
  destruct (apply_modifications (engine self) data).2 as [|c ch].
  { destruct Hev as [[d ->]| ->]; trace_cases Hin; by destruct Hlg. }
  assert (ev ∈ (λ c0 : ChangeRecord,
                  Print (c0.1 +:+ " modified at offset " +:+ c0.2)) <$>
               (c :: ch) → False) as Hrep.
  { intros (c0 & -> & _)%list_elem_of_fmap.
    by destruct Hev as [[d [=]]|[=]]. }
  destruct (os_open_wb os (output_file self)) as [e|];
    [|destruct (os_write os (output_file self)
                  (apply_modifications (engine self) data).1) as [e|];
      [|destruct (os_close_wb os (output_file self)) as [e|]]];
    destruct Hev as [[d ->]| ->]; trace_cases Hin;
      try (by destruct Hlg); try (by destruct Hrep); done.
Qed.

(** X9.  The output name that [__init__] generates when [output_file] is
    [None] or empty is the input name without its extension, followed by
    ["_modified_"], the time stamp and [".bin"], and it is never the input
    name itself; so a handler built without an output name never opens
    its input file for writing.  A non-empty [output_file] is taken as
    given. *)
Theorem generated_output_is_not_the_input
    (os : OS) (inp : string) (out : option string)
    (opts : option (gmap string bool)) (now : string) :
  (out = None ∨ out = Some ""%string →
   output_file (init_files inp out opts now) =
     (splitext inp).1 +:+ "_modified_" +:+ now +:+ ".bin" ∧
   output_file (init_files inp out opts now) ≠ inp ∧
   (OpenWrite inp ∉ process os (init_files inp out opts now)) ∧
   ∀ d, WriteAll inp d ∉ process os (init_files inp out opts now)) ∧
  (∀ o, out = Some o → o ≠ ""%string →
        output_file (init_files inp out opts now) = o).
Proof.
  split.
  - intros Hout.
    assert (output_file (init_files inp out opts now) =
            (splitext inp).1 +:+ "_modified_" +:+ now +:+ ".bin") as Hgen
      by (destruct Hout as [-> | ->]; done).
    assert (output_file (init_files inp out opts now) ≠ inp) as Hne
      by (rewrite Hgen; apply generated_name_differs).
    split_and!; [done..| |].
    + intros Hw. apply Hne. symmetry.
      apply (process_write_path os _ inp). by left.
    + intros d Hw. apply Hne. symmetry.
      apply (process_write_path os _ inp). right. by exists d.
  - intros o -> Ho. simpl. by rewrite bool_decide_eq_false_2.
Qed.

Lemma generated_output_is_not_the_input_witness :
  output_file (init_files "ecu.bin" None None "20240101120000") =
    (splitext "ecu.bin").1 +:+ "_modified_" +:+ "20240101120000" +:+ ".bin" ∧
  output_file (init_files "ecu.bin" None None "20240101120000") ≠
    "ecu.bin"%string ∧
  (OpenWrite "ecu.bin" ∉
     process (os_ok pad) (init_files "ecu.bin" None None "20240101120000")) ∧
  ∀ d, WriteAll "ecu.bin" d ∉
    process (os_ok pad) (init_files "ecu.bin" None None "20240101120000").
Proof.
  apply (proj1 (generated_output_is_not_the_input (os_ok pad) "ecu.bin"
                  None None "20240101120000")).
  by left.
Defined.

(** * The command-line script *)

(** ** Which rules the answers select *)

Lemma startstop_untouched opts data p i :
  enabled opts "StartStop" = false →
  ("StartStop"%string, p) ∈ catalog →
  occurs (signature p) i data →
  slice (i + length (signature p))
        (i + length (signature p) + length (stock p))
        (apply_modifications (handler opts) data).1 =
  slice (i + length (signature p))
        (i + length (signature p) + length (stock p)) data.
Proof.
  intros Hoff Hp Ho. unfold apply_modifications.
  cbn [handler options patterns].
  apply (run_inv (λ d _,
    occurs (signature p) i d ∧
    slice (i + length (signature p))
          (i + length (signature p) + length (stock p)) d =
    slice (i + length (signature p))
          (i + length (signature p) + length (stock p)) data));
    [|done].
  intros d c n' p' i' Hin' He' Hf [Hsig Hkeep].
  apply first_match_Some in Hf as (_ & Hm & _).
  assert (length (off p') = length (stock p') ∧
          spares_signature p' p = true) as [Hlen Hsp].
  { catalog_cases Hp; catalog_cases Hin';
      solve [ split; vm_compute; reflexivity
            | rewrite Hoff in He'; discriminate He' ]. }
  pose proof Hm as Hw. rewrite matches_occurs in Hw. fold (window p') in Hw.
  destruct (separated_sound _ _ _ _ _ _ _ _ _ _ Hsp Hw Hsig)
    as [Hd|[Hd|[? _]]]; [| |done].
  - split.
    + apply (occurs_patch_disjoint p' d i'); [done|done|lia|done].
    + rewrite slice_patch_disjoint by (done || lia). done.
  - split.
    + apply (occurs_patch_disjoint p' d i'); [done|done|lia|done].
    + rewrite slice_patch_disjoint by (done || lia). done.
Qed.

Lemma main_engine str_lower fa d e s ss now :
  engine (main_handler str_lower fa d e s ss now) =
  handler (main_options (switch str_lower d) (switch str_lower e)
             (switch str_lower s) (switch str_lower ss)).
Proof.
  unfold main_handler, init_files, init, handler. cbn [engine].
  by f_equal.
Qed.

(** X10.  Whatever the five answers are (and whatever the case tables
    behind [str.lower] say), the handler the script builds has the
    catalog as its rules and keeps the four switches as its options: they
    are never replaced by the defaults, not even when all four are no.
    DPF, EGR and SCR are evaluated exactly when the switch computed from
    the corresponding answer is true, and StartStop is evaluated for no
    answer at all, because its switch is stored under ['start_stop'] while
    the engine looks under ['startstop']. *)
Theorem script_answers_select_rules
    (str_lower : list N → list N) (file_answer : string)
    (dpf_answer egr_answer scr_answer start_stop_answer : list N)
    (now : string) :
  let self :=
    engine (main_handler str_lower file_answer dpf_answer egr_answer
              scr_answer start_stop_answer now) in
  patterns self = catalog ∧
  options self =
    main_options (switch str_lower dpf_answer) (switch str_lower egr_answer)
      (switch str_lower scr_answer) (switch str_lower start_stop_answer) ∧
  enabled (options self) "DPF" = switch str_lower dpf_answer ∧
  enabled (options self) "EGR" = switch str_lower egr_answer ∧
  enabled (options self) "SCR" = switch str_lower scr_answer ∧
  enabled (options self) "StartStop" = false.
Proof.
  cbv zeta. rewrite main_engine. cbn [handler options patterns].
  split_and!; [done..| | | |];
    destruct (switch str_lower dpf_answer), (switch str_lower egr_answer),
      (switch str_lower scr_answer), (switch str_lower start_stop_answer);
    vm_compute; reflexivity.
Qed.

(** X11.  No run of the script disables Start/Stop: whatever the answers
    and whatever the buffer, the engine of the script's handler returns
    no record named StartStop, and wherever the StartStop signature
    occurs in the buffer the bytes that follow it (as many as the rule
    has stock bytes) are the same after the run. *)
Theorem script_never_patches_startstop
    (str_lower : list N → list N) (file_answer : string)
    (dpf_answer egr_answer scr_answer start_stop_answer : list N)
    (now : string) (data : list byte) :
  let self :=
    engine (main_handler str_lower file_answer dpf_answer egr_answer
              scr_answer start_stop_answer now) in
  ("StartStop"%string ∉ (apply_modifications self data).2.*1) ∧
  (∀ p i,
     ("StartStop"%string, p) ∈ patterns self →
     occurs (signature p) i data →
     slice (i + length (signature p))
           (i + length (signature p) + length (stock p))
           (apply_modifications self data).1 =
     slice (i + length (signature p))
           (i + length (signature p) + length (stock p)) data).
Proof.
  cbv zeta. rewrite main_engine.
  assert (enabled (main_options (switch str_lower dpf_answer)
                     (switch str_lower egr_answer)
                     (switch str_lower scr_answer)
                     (switch str_lower start_stop_answer))
            "StartStop" = false) as Hoff.
  { destruct (switch str_lower dpf_answer), (switch str_lower egr_answer),
      (switch str_lower scr_answer), (switch str_lower start_stop_answer);
      vm_compute; reflexivity. }
  split.
  - intros Hin. apply list_elem_of_fmap in Hin as ([n o] & Hn & Hin).
    apply run_changes_enabled in Hin. simpl in *. subst n. congruence.
  - intros p i Hp Ho. by apply startstop_untouched.
Qed.

Lemma script_never_patches_startstop_witness :
  let p := {| signature := [x53; x54; x41; x52; x54];
              stock := [x01; x01; x00];
              off := [x00; x00; xff] |} in
  let buf := [x53; x54; x41; x52; x54; x01; x01; x00] ++ pad in
  let y := [121%N] in
  let self :=
    engine (main_handler ascii_lower_points "" y y y y "20240101120000") in
  slice (0 + length (signature p))
        (0 + length (signature p) + length (stock p))
        (apply_modifications self buf).1 =
  slice (0 + length (signature p))
        (0 + length (signature p) + length (stock p)) buf.
Proof.
  intros p buf y self.
  refine (proj2 (script_never_patches_startstop ascii_lower_points
                   "" y y y y "20240101120000" buf) p 0 _ _).
  - rewrite main_engine. cbn [handler patterns]. unfold catalog.
    do 3 right. left.
  - vm_compute. reflexivity.
Defined.

(** ** What counts as a yes *)

Lemma lstrip_spec s :
  ∃ l, blank l = true ∧ s = l ++ lstrip s.
Proof.
  induction s as [|c s (l & Hl & Hs)]; simpl.
  - by exists [].
  - destruct (is_space c) eqn:Hc.
    + exists (c :: l). unfold blank in *. simpl. rewrite Hc, Hl.
      split; [done|]. by f_equal.
    + by exists [].
Qed.

Lemma rstrip_spec s :
  ∃ r, blank r = true ∧ s = rstrip s ++ r.
Proof.
  induction s as [|c s (r & Hr & Hs)]; simpl.
  - by exists [].
  - destruct (rstrip s) as [|c' t] eqn:E.
    + simpl in Hs. subst r. destruct (is_space c) eqn:Hc.
      * exists (c :: s). unfold blank in *. simpl. by rewrite Hc, Hr.
      * by exists s.
    + exists r. split; [done|]. simpl. by f_equal.
Qed.

Lemma lstrip_blank_app l c t :
  blank l = true → is_space c = false → lstrip (l ++ c :: t) = c :: t.
Proof.
  intros Hl Hc. induction l as [|x l IH]; simpl in *.
  - by rewrite Hc.
  - apply andb_true_iff in Hl as [Hx Hl]. rewrite Hx. by apply IH.
Qed.

Lemma rstrip_blank r : blank r = true → rstrip r = [].
Proof.
  induction r as [|x r IH]; simpl; [done|].
  intros [Hx Hr]%andb_true_iff. by rewrite IH, Hx.
Qed.

(** X12.  The case tables of Unicode have exactly two texts that
    [str.lower] turns into "y": "y" and "Y".  Given this fact about
    [str_lower], an answer counts as a yes exactly when it is the single
    letter y or Y, possibly surrounded by white space (in the sense of
    [str.isspace], Unicode white space such as U+00A0 included): longer
    answers such as "yes" are a no. *)
Theorem switch_spec (str_lower : list N → list N) (answer : list N) :
  (∀ s, str_lower s = [121%N] ↔ s = [121%N] ∨ s = [89%N]) →
  switch str_lower answer = true ↔
  ∃ l r, blank l = true ∧ blank r = true ∧
         (answer = l ++ [121%N] ++ r ∨ answer = l ++ [89%N] ++ r).
Proof.
  intros Hlower. unfold switch.
  rewrite bool_decide_eq_true, Hlower. unfold strip. split.
  - intros Hy.
    destruct (lstrip_spec answer) as (l & Hl & Ha).
    destruct (rstrip_spec (lstrip answer)) as (r & Hr & Hs).
    exists l, r. split_and!; [done..|].
    destruct Hy as [Hy|Hy]; rewrite Hy in Hs; rewrite Hs in Ha; auto.
  - intros (l & r & Hl & Hr & [-> | ->]); simpl.
    + rewrite lstrip_blank_app by done. simpl.
      rewrite (rstrip_blank r Hr). auto.
    + rewrite lstrip_blank_app by done. simpl.
      rewrite (rstrip_blank r Hr). auto.
Qed.

Lemma ascii_lower_points_y s :
  ascii_lower_points s = [121%N] ↔ s = [121%N] ∨ s = [89%N].
Proof.
  unfold ascii_lower_points. split; [|by intros [-> | ->]].
  destruct s as [|c [|c' s]]; simpl; [done| |done].
  destruct ((65 <=? c) && (c <=? 90))%N eqn:Hc; intros [= Heq].
  - right. f_equal. lia.
  - left. by f_equal.
Qed.

Lemma switch_spec_witness :
  switch ascii_lower_points [0xA0%N; 89%N; 0x3000%N] = true.
Proof.
  apply (proj2 (switch_spec ascii_lower_points [0xA0%N; 89%N; 0x3000%N]
                  ascii_lower_points_y)).
  exists [0xA0%N], [0x3000%N]. split_and!; [reflexivity..|]. by right.
Defined.

(** "y", "Y" between a no-break space and an ideographic space, "yes",
    "n" and the empty answer. *)
Example switch_examples :
  switch ascii_lower_points [121%N] = true ∧
  switch ascii_lower_points [0xA0%N; 89%N; 0x3000%N] = true ∧
  switch ascii_lower_points [121%N; 101%N; 115%N] = false ∧
  switch ascii_lower_points [110%N] = false ∧
  switch ascii_lower_points [] = false.
Proof. vm_compute. done. Qed.

(** * More on the engine and its callers *)

(** ** The log of the engine *)

Lemma scan_loop_log_spec name p range data changes :
  scan_loop_log name p range (data, changes) =
    match head (filter (matches p data) range) with
    | Some i =>
        ([Log INFO (name +:+ " modified at offset " +:+ hex i +:+ ".")],
         (patch p i data, changes ++ [(name, hex i)]))
    | None => ([], (data, changes))
    end.
Proof.
  induction range as [|i range IH]; [done|].
  cbn [scan_loop_log]. rewrite filter_cons.
  destruct (decide (matches p data i)) as [[Hs Hk]|Hn].
  - unfold occurs in Hs, Hk.
    rewrite (bool_decide_eq_true_2 _ Hs), (bool_decide_eq_true_2 _ Hk). done.
  - rewrite IH. case_bool_decide as Hs; [|done].
    case_bool_decide as Hk; [|done]. destruct Hn. by split.
Qed.

Lemma visit_log_cases opts lg data changes n p :
  (enabled opts n = false ∧
   visit_log opts (lg, (data, changes)) (n, p) =
     (lg ++ [Log INFO ("Skipping " +:+ n
                       +:+ " modification (disabled by user).")],
      (data, changes))) ∨
  (enabled opts n = true ∧
   visit_log opts (lg, (data, changes)) (n, p) = (lg, (data, changes))) ∨
  (∃ i, enabled opts n = true ∧
        visit_log opts (lg, (data, changes)) (n, p) =
          (lg ++ [Log INFO (n +:+ " modified at offset " +:+ hex i +:+ ".")],
           (patch p i data, changes ++ [(n, hex i)]))).
Proof.
  unfold visit_log, enabled.
  destruct (default false (opts !! lower n)); simpl; [|by left].
  right. rewrite scan_loop_log_spec.
  destruct (head _) as [i|]; simpl; [right; eauto|left].
  by rewrite app_nil_r.
Qed.

Lemma apply_log_inv opts rs :
  ∀ lg data changes,
    let r := foldl (visit_log opts) (lg, (data, changes)) rs in
    ∃ lg' extra,
      r.1 = lg ++ lg' ∧ r.2.2 = changes ++ extra ∧
      length lg' =
        length extra +
        length (filter (λ e : string * Pattern, enabled opts e.1 = false) rs) ∧
      (∀ c, c ∈ extra →
         Log INFO (c.1 +:+ " modified at offset " +:+ c.2 +:+ ".") ∈ lg') ∧
      (∀ n p, (n, p) ∈ rs → enabled opts n = false →
         Log INFO ("Skipping " +:+ n +:+ " modification (disabled by user).")
           ∈ lg').
Proof.
  induction rs as [|[n p] rs IH]; intros lg data changes; cbn [foldl].
  { exists [], []. simpl. rewrite !app_nil_r. split_and!; try done.
    - by intros c ?%not_elem_of_nil.
    - by intros n p ?%not_elem_of_nil. }
  rewrite filter_cons.
  destruct (visit_log_cases opts lg data changes n p)
    as [[He ->]|[[He ->]|(i & He & ->)]].
  - destruct (IH (lg ++ [Log INFO ("Skipping " +:+ n
                   +:+ " modification (disabled by user).")]) data changes)
      as (lg' & extra & Hlg & Hch & Hlen & Hrec & Hskip).
    eexists (_ :: lg'), extra. rewrite Hlg, Hch, <- app_assoc.
    rewrite decide_True by done. simpl. split_and!; try done; [lia| |].
    + intros c Hc. right. by apply Hrec.
    + intros n' p' [[= -> ->]|Hin]%elem_of_cons Hoff; [left|right].
      by apply (Hskip n' p').
  - destruct (IH lg data changes)
      as (lg' & extra & Hlg & Hch & Hlen & Hrec & Hskip).
    exists lg', extra. rewrite decide_False by (simpl; congruence).
    split_and!; try done.
    intros n' p' [[= -> ->]|Hin]%elem_of_cons Hoff; [congruence|].
    by apply (Hskip n' p').
  - destruct (IH (lg ++ [Log INFO (n +:+ " modified at offset "
                                   +:+ hex i +:+ ".")])
                (patch p i data) (changes ++ [(n, hex i)]))
      as (lg' & extra & Hlg & Hch & Hlen & Hrec & Hskip).
    eexists (_ :: lg'), ((n, hex i) :: extra).
    rewrite Hlg, Hch, <- !app_assoc.
    rewrite decide_False by (simpl; congruence). simpl.
    split_and!; try done; [lia| |].
    + intros c [->|Hc]%elem_of_cons; [left|right; by apply Hrec].
    + intros n' p' [[= -> ->]|Hin]%elem_of_cons Hoff; [congruence|].
      right. by apply (Hskip n' p').
Qed.

(** X13.  The engine logs one line per rule at most: a rule that is not
    enabled leaves its "Skipping" line, a rule that patched leaves the
    line with its name and offset, and an evaluated rule that found no
    match leaves nothing.  Apart from the log, the logging engine returns
    what [apply_modifications] returns. *)
Theorem engine_log_lines (self : MEDC17EmissionHandler) (data : list byte) :
  (apply_modifications_log self data).2 = apply_modifications self data ∧
  (∀ c, c ∈ (apply_modifications self data).2 →
     Log INFO (c.1 +:+ " modified at offset " +:+ c.2 +:+ ".")
       ∈ (apply_modifications_log self data).1) ∧
  (∀ n p, (n, p) ∈ patterns self → enabled (options self) n = false →
     Log INFO ("Skipping " +:+ n +:+ " modification (disabled by user).")
       ∈ (apply_modifications_log self data).1) ∧
  length (apply_modifications_log self data).1 =
    length (apply_modifications self data).2 +
    length (filter (λ e : string * Pattern,
                      enabled (options self) e.1 = false) (patterns self)).
Proof.
  rewrite <- apply_log_erase. unfold apply_modifications_log.
  destruct (apply_log_inv (options self) (patterns self) [] data [])
    as (lg' & extra & Hlg & Hch & Hlen & Hrec & Hskip).
  cbv zeta in *. rewrite Hlg, Hch. simpl. split_and!; done.
Qed.

Lemma engine_log_lines_witness :
  let buf := [x44; x50; x46; x5f; x01; x01; x01; x00; x00] ++ pad in
  Log INFO ("DPF" +:+ " modified at offset " +:+ "0x0" +:+ ".")
    ∈ (apply_modifications_log (handler (only "dpf")) buf).1.
Proof.
  intros buf.
  refine (proj1 (proj2 (engine_log_lines (handler (only "dpf")) buf))
            ("DPF"%string, "0x0"%string) _).
  apply (bool_decide_unpack _). vm_compute. exact I.
Defined.

(** ** The report and the write *)



(** ** Later runs *)

(** X15.  What has been switched off stays switched off: wherever the
    buffer already holds the signature of a catalog rule followed by its
    off bytes, it still does after a run, whatever the enabled mapping.
    No rule patches into, or reverts, a window that was patched before. *)
Theorem switched_off_stays_off
    (opts : gmap string bool) (data : list byte)
    (n : string) (p : Pattern) (i : nat) :
  (n, p) ∈ catalog →
  occurs (patched_window p) i data →
  occurs (patched_window p) i (apply_modifications (handler opts) data).1.
Proof.
  intros Hin Ho. unfold apply_modifications. cbn [handler options patterns].
  apply (run_inv (λ d _, occurs (patched_window p) i d)); [|done].
  intros d c n' p' i' Hin' _ Hf Hd.
  apply first_match_Some in Hf as (_ & Hm & _).
  by apply (patch_keeps_patched catalog catalog_well_separated n' p' n p).
Qed.

Lemma switched_off_stays_off_witness :
  let p := {| signature := [x44; x50; x46; x5f];
              stock := [x01; x01; x01; x00; x00];
              off := [x00; x00; x00; xff; xff] |} in
  let buf := [x44; x50; x46; x5f; x00; x00; x00; xff; xff] ++
             [x44; x50; x46; x5f; x01; x01; x01; x00; x00] ++ pad in
  occurs (patched_window p) 0
    (apply_modifications (handler default_options) buf).1.
Proof.
  intros p buf.
  apply (switched_off_stays_off default_options buf "DPF" p 0).
  - left.
  - vm_compute. reflexivity.
Defined.

(** ** Options passed to the constructor *)

(** X16.  An enabled mapping that is empty is treated by [__init__] like
    no mapping at all: the defaults are used, so the run is the run under
    the defaults and DPF, EGR and SCR are evaluated.  Every non-empty
    mapping is kept as it is; to evaluate no rule the caller has to pass
    a non-empty mapping. *)
Theorem empty_options_mean_defaults :
  (∀ data, apply_modifications (init (Some ∅)) data =
           apply_modifications (init None) data) ∧
  enabled (options (init (Some ∅))) "DPF" = true ∧
  enabled (options (init (Some ∅))) "EGR" = true ∧
  enabled (options (init (Some ∅))) "SCR" = true ∧
  (∀ m, m ≠ ∅ → options (init (Some m)) = m) ∧
  (∀ m data, m ≠ ∅ →
     (∀ n p, (n, p) ∈ catalog → enabled m n = false) →
     apply_modifications (init (Some m)) data = (data, [])).
Proof.
  split_and!; try done.
  - intros m Hm. cbn [init options init_options]. by rewrite decide_False.
  - intros m data Hm Hoff. unfold apply_modifications.
    cbn [init options patterns init_options]. rewrite decide_False by done.
    apply run_no_match. intros n p Hin He.
    rewrite (Hoff n p Hin) in He. discriminate He.
Qed.

Lemma empty_options_mean_defaults_witness :
  apply_modifications (init (Some (main_options false false false false)))
    ([x44; x50; x46; x5f; x01; x01; x01; x00; x00] ++ pad) =
  ([x44; x50; x46; x5f; x01; x01; x01; x00; x00] ++ pad, []).
Proof.
  refine (proj2 (proj2 (proj2 (proj2 (proj2 empty_options_mean_defaults))))
            (main_options false false false false) _ _ _).
  - intros Hempty.
    apply (f_equal (λ m : gmap string bool, m !! "dpf"%string)) in Hempty.
    vm_compute in Hempty. discriminate Hempty.
  - intros n p Hin. catalog_cases Hin; vm_compute; reflexivity.
Defined.
